(** * HW-GeoGuessr: the game session state machine and its scoring engine

    A shallow embedding of [react-vite-app/src/hooks/useGameState.js]
    (the multi-round version of the hook), of the rating helper of
    [FinalResultsScreen.jsx] and of the wiring of the callbacks in
    [App.jsx] and [ResultScreen.jsx].

    Number model.  JavaScript numbers that hold coordinates, distances and
    the argument of [Math.exp] are modelled as real numbers ([R]); scores,
    floors and round counters are integers ([Z], [nat]); the percentage of
    the rating helper is a rational extended with the non-finite values a
    JavaScript division can produce.  Rounding error of IEEE doubles is
    not modelled.

    Call model.  [Session] gives each callback as a completed call;
    [Async] splits [startGame] and [nextRound] at their [await], so that
    the states committed while a fetch is in flight, and calls and
    settlements in any order, are states and courses of the model. *)

From Stdlib Require Import ZArith List Bool String Lia.
From Stdlib Require Import QArith.
From Stdlib Require Import Reals Lra.
Import ListNotations.

Open Scope Z_scope.

(* ================================================================= *)
(** ** Scoring engine *)

Module Scoring.

(** [Math.round]: the nearest integer, ties towards plus infinity. *)
Definition Math_round (x : R) : Z := Zfloor (x + / 2)%R.

Record Point : Type := mkPoint { px : R; py : R }.

(** [calculateDistance(guess, actual)], useGameState.js l.127-131, over
    the reals: the square root is exact here and rounded in the code, so
    only facts that do not turn on the last digit or on underflow are
    stated of it. *)
Definition calculateDistance (guess actual : Point) : R :=
  let dx := (px guess - px actual)%R in
  let dy := (py guess - py actual)%R in
  sqrt (dx * dx + dy * dy)%R.

Definition maxScore : Z := 5000.
Definition decayRate : R := (5 / 100)%R.

(** [calculateLocationScore(distance)], useGameState.js l.136-141. *)
Definition calculateLocationScore (distance : R) : Z :=
  let score := Math_round (IZR maxScore * exp (- decayRate * distance))%R in
  Z.max 0 (Z.min maxScore score).

(** The score of a round, useGameState.js l.252:
    [floorCorrect ? locationScore : Math.round(locationScore * 0.8)]. *)
Definition roundScore (locationScore : Z) (floorCorrect : bool) : Z :=
  if floorCorrect then locationScore
  else Math_round (IZR locationScore * (8 / 10))%R.

(** The clamp of the specification: a value below the interval becomes its
    lower end, a value above it becomes its upper end. *)
Definition clamp (lo hi x : Z) : Z :=
  if x <? lo then lo else if hi <? x then hi else x.

End Scoring.

(* ================================================================= *)
(** ** Performance rating (FinalResultsScreen.jsx) *)

Module Rating.

(** The value of a JavaScript arithmetic expression over finite operands:
    a finite number, or what a division by zero produces. *)
Inductive jsnum : Type :=
| Finite (q : Q)
| PosInfinity
| NegInfinity
| NaN.

(** [a / b]: dividing by zero gives [NaN] for [0 / 0] and an infinity of
    the sign of [a] otherwise. *)
Definition js_div (a b : Q) : jsnum :=
  if Qeq_bool b 0 then
    match (a ?= 0)%Q with
    | Eq => NaN
    | Gt => PosInfinity
    | Lt => NegInfinity
    end
  else Finite (a / b).

(** [x * c] for a finite [c]. *)
Definition js_mul (x : jsnum) (c : Q) : jsnum :=
  match x with
  | Finite q => Finite (q * c)
  | NaN => NaN
  | PosInfinity =>
      match (c ?= 0)%Q with Eq => NaN | Gt => PosInfinity | Lt => NegInfinity end
  | NegInfinity =>
      match (c ?= 0)%Q with Eq => NaN | Gt => NegInfinity | Lt => PosInfinity end
  end.

(** [x >= c]: every comparison with [NaN] is false. *)
Definition js_ge (x : jsnum) (c : Q) : bool :=
  match x with
  | Finite q => Qle_bool c q
  | PosInfinity => true
  | NegInfinity => false
  | NaN => false
  end.

(** The [rating] field of the object [getPerformanceRating] returns; its
    [emoji] and [class] fields are functions of it. *)
Inductive Tier : Type :=
| Perfect | Excellent | Great | Good | KeepPracticing | Beginner.

(** [getPerformanceRating(totalScore, maxPossible)]. *)
Definition getPerformanceRating (totalScore maxPossible : Q) : Tier :=
  let percentage := js_mul (js_div totalScore maxPossible) 100 in
  if js_ge percentage 95 then Perfect
  else if js_ge percentage 80 then Excellent
  else if js_ge percentage 60 then Great
  else if js_ge percentage 40 then Good
  else if js_ge percentage 20 then KeepPracticing
  else Beginner.

End Rating.

(* ================================================================= *)
(** ** The session state machine (useGameState.js) *)

Module Session.
Import Scoring.

Inductive Screen : Type := Title | Game | Result | FinalResults.

Definition TOTAL_ROUNDS : nat := 5.

(** What [getRandomImage] resolves to.  [correctLocation] and
    [correctFloor] may be missing from the document. *)
Record Image : Type := mkImage {
  url : string;
  correctLocation : option Point;
  correctFloor : option Z
}.

(** The [result] object built by [submitGuess]. *)
Record RoundResult : Type := mkRoundResult {
  roundNumber : nat;
  imageUrl : string;
  res_guessLocation : Point;
  actualLocation : Point;
  res_guessFloor : Z;
  actualFloor : Z;
  distance : R;
  locationScore : Z;
  floorCorrect : bool;
  score : Z
}.

(** The nine [useState] cells of the hook. *)
Record GameState : Type := mkGameState {
  screen : Screen;
  currentRound : nat;
  currentImage : option Image;
  guessLocation : option Point;
  guessFloor : option Z;
  currentResult : option RoundResult;
  roundResults : list RoundResult;
  isLoading : bool;
  error : option string
}.

(** The hook's state together with the number of calls made to
    [getRandomImage] so far. *)
Record World : Type := mkWorld {
  game : GameState;
  calls : nat
}.

Definition initialState : GameState :=
  {| screen := Title; currentRound := 1; currentImage := None;
     guessLocation := None; guessFloor := None; currentResult := None;
     roundResults := []; isLoading := false; error := None |}.

Definition initialWorld : World := {| game := initialState; calls := 0 |}.

(** *** A state monad for the callbacks *)

Definition Action (A : Type) : Type := World -> A * World.

Definition ret {A} (a : A) : Action A := fun w => (a, w).

Definition bind {A B} (m : Action A) (k : A -> Action B) : Action B :=
  fun w => let (a, w') := m w in k a w'.

Notation "x <- m ;; k" := (bind m (fun x => k))
  (at level 61, m at next level, right associativity).
Notation "m ;; k" := (bind m (fun _ => k))
  (at level 61, right associativity).

Definition getState : Action GameState := fun w => (game w, w).

Definition modify (f : GameState -> GameState) : Action unit :=
  fun w => (tt, {| game := f (game w); calls := calls w |}).

(** The state setters.  Those the hook calls with an updater function
    ([setCurrentRound], [setRoundResults]) take a function here too. *)
Definition setScreen (v : Screen) : Action unit :=
  modify (fun s => {| screen := v; currentRound := currentRound s;
    currentImage := currentImage s; guessLocation := guessLocation s;
    guessFloor := guessFloor s; currentResult := currentResult s;
    roundResults := roundResults s; isLoading := isLoading s;
    error := error s |}).

Definition setCurrentRound (f : nat -> nat) : Action unit :=
  modify (fun s => {| screen := screen s; currentRound := f (currentRound s);
    currentImage := currentImage s; guessLocation := guessLocation s;
    guessFloor := guessFloor s; currentResult := currentResult s;
    roundResults := roundResults s; isLoading := isLoading s;
    error := error s |}).

Definition setCurrentImage (v : option Image) : Action unit :=
  modify (fun s => {| screen := screen s; currentRound := currentRound s;
    currentImage := v; guessLocation := guessLocation s;
    guessFloor := guessFloor s; currentResult := currentResult s;
    roundResults := roundResults s; isLoading := isLoading s;
    error := error s |}).

Definition setGuessLocation (v : option Point) : Action unit :=
  modify (fun s => {| screen := screen s; currentRound := currentRound s;
    currentImage := currentImage s; guessLocation := v;
    guessFloor := guessFloor s; currentResult := currentResult s;
    roundResults := roundResults s; isLoading := isLoading s;
    error := error s |}).

Definition setGuessFloor (v : option Z) : Action unit :=
  modify (fun s => {| screen := screen s; currentRound := currentRound s;
    currentImage := currentImage s; guessLocation := guessLocation s;
    guessFloor := v; currentResult := currentResult s;
    roundResults := roundResults s; isLoading := isLoading s;
    error := error s |}).

Definition setCurrentResult (v : option RoundResult) : Action unit :=
  modify (fun s => {| screen := screen s; currentRound := currentRound s;
    currentImage := currentImage s; guessLocation := guessLocation s;
    guessFloor := guessFloor s; currentResult := v;
    roundResults := roundResults s; isLoading := isLoading s;
    error := error s |}).

Definition setRoundResults (f : list RoundResult -> list RoundResult)
  : Action unit :=
  modify (fun s => {| screen := screen s; currentRound := currentRound s;
    currentImage := currentImage s; guessLocation := guessLocation s;
    guessFloor := guessFloor s; currentResult := currentResult s;
    roundResults := f (roundResults s); isLoading := isLoading s;
    error := error s |}).

Definition setIsLoading (v : bool) : Action unit :=
  modify (fun s => {| screen := screen s; currentRound := currentRound s;
    currentImage := currentImage s; guessLocation := guessLocation s;
    guessFloor := guessFloor s; currentResult := currentResult s;
    roundResults := roundResults s; isLoading := v;
    error := error s |}).

Definition setError (v : option string) : Action unit :=
  modify (fun s => {| screen := screen s; currentRound := currentRound s;
    currentImage := currentImage s; guessLocation := guessLocation s;
    guessFloor := guessFloor s; currentResult := currentResult s;
    roundResults := roundResults s; isLoading := isLoading s;
    error := v |}).

Definition loadFailure : string := "Failed to load image. Please try again.".

(** JavaScript truthiness of a floor number: [null] and [0] are falsy. *)
Definition truthyFloor (f : option Z) : option Z :=
  match f with
  | Some n => if n =? 0 then None else Some n
  | None => None
  end.

(** [buildResult]: the body of [submitGuess] between its guard and its
    state updates (l.243-266). *)
Definition buildResult (round : nat) (image : Image)
    (guess : Point) (floor : Z) : RoundResult :=
  let actualLocation :=
    match correctLocation image with
    | Some p => p
    | None => {| px := 50; py := 50 |}
    end in
  let actualFloor :=
    match truthyFloor (correctFloor image) with
    | Some f => f
    | None => 1
    end in
  let distance := calculateDistance guess actualLocation in
  let locationScore := calculateLocationScore distance in
  let floorCorrect := floor =? actualFloor in
  let totalScore := roundScore locationScore floorCorrect in
  {| roundNumber := round; imageUrl := url image;
     res_guessLocation := guess; actualLocation := actualLocation;
     res_guessFloor := floor; actualFloor := actualFloor;
     distance := distance; locationScore := locationScore;
     floorCorrect := floorCorrect; score := totalScore |}.

Section WithProvider.

(** The Location Provider: the outcome of the [n]-th call of
    [getRandomImage], [None] when the promise rejects. *)
Variable provider : nat -> option Image.

Definition getRandomImage : Action (option Image) :=
  fun w => (provider (calls w), {| game := game w; calls := S (calls w) |}).

(** [loadNewImage], l.178-193, split at its [await]. *)
Definition loadNewImage_begin : Action unit :=
  setIsLoading true ;;
  setError None.

Definition loadNewImage_resume (outcome : option Image) : Action unit :=
  match outcome with
  | Some image =>
      setCurrentImage (Some image) ;;
      setGuessLocation None ;;
      setGuessFloor None
  | None => setError (Some loadFailure)
  end ;;
  setIsLoading false.

Definition loadNewImage : Action unit :=
  loadNewImage_begin ;;
  outcome <- getRandomImage ;;
  loadNewImage_resume outcome.

(** [startGame], l.198-218, split at its [await]. *)
Definition startGame_begin : Action unit :=
  setCurrentRound (fun _ => 1%nat) ;;
  setRoundResults (fun _ => []) ;;
  setCurrentResult None ;;
  setIsLoading true ;;
  setError None.

Definition startGame_resume (outcome : option Image) : Action unit :=
  match outcome with
  | Some image =>
      setCurrentImage (Some image) ;;
      setGuessLocation None ;;
      setGuessFloor None ;;
      setScreen Game
  | None => setError (Some loadFailure)
  end ;;
  setIsLoading false.

Definition startGame : Action unit :=
  startGame_begin ;;
  outcome <- getRandomImage ;;
  startGame_resume outcome.

(** [placeMarker], l.223-225, and [selectFloor], l.230-232. *)
Definition placeMarker (coords : Point) : Action unit :=
  setGuessLocation (Some coords).

Definition selectFloor (floor : Z) : Action unit :=
  setGuessFloor (Some floor).

(** [submitGuess], l.237-274.  The callback reads the state cells of the
    render it was created in. *)
Definition submitGuess : Action unit :=
  s <- getState ;;
  match guessLocation s, truthyFloor (guessFloor s), currentImage s with
  | Some guess, Some floor, Some image =>
      let result := buildResult (currentRound s) image guess floor in
      setCurrentResult (Some result) ;;
      setRoundResults (fun prev => prev ++ [result]) ;;
      setScreen Result
  | _, _, _ => ret tt
  end.

(** [nextRound], l.279-293. *)
Definition nextRound : Action unit :=
  s <- getState ;;
  if (TOTAL_ROUNDS <=? currentRound s)%nat then
    setScreen FinalResults
  else
    setCurrentRound (fun prev => (prev + 1)%nat) ;;
    setCurrentResult None ;;
    loadNewImage ;;
    setScreen Game.

(** [viewFinalResults], l.298-300. *)
Definition viewFinalResults : Action unit :=
  setScreen FinalResults.

(** [resetGame], l.305-314. *)
Definition resetGame : Action unit :=
  setScreen Title ;;
  setCurrentRound (fun _ => 1%nat) ;;
  setCurrentImage None ;;
  setGuessLocation None ;;
  setGuessFloor None ;;
  setCurrentResult None ;;
  setRoundResults (fun _ => []) ;;
  setError None.

(** *** Sequences of calls *)

(** One call of the session API.  [StartGame] is both [startMatch] and
    [playAgain]; [NextRound] is [advance]. *)
Inductive Op : Type :=
| StartGame
| PlaceMarker (coords : Point)
| SelectFloor (floor : Z)
| SubmitGuess
| NextRound
| ViewFinalResults
| ResetGame.

Definition perform (op : Op) : Action unit :=
  match op with
  | StartGame => startGame
  | PlaceMarker coords => placeMarker coords
  | SelectFloor floor => selectFloor floor
  | SubmitGuess => submitGuess
  | NextRound => nextRound
  | ViewFinalResults => viewFinalResults
  | ResetGame => resetGame
  end.

Definition step (op : Op) (w : World) : World := snd (perform op w).

(** Completed calls: each call runs to completion, its fetch settled,
    before the next one is made, and the next callback is the one React
    created for the state this one committed.  [exec] and [run] visit
    the states between completed calls only; the states a callback
    commits before its [await], and calls made while a fetch is in
    flight, are those of [Async.play] below, of which [exec] is the
    course [Async.completeEach]. *)
Fixpoint exec (ops : list Op) (w : World) : World :=
  match ops with
  | [] => w
  | op :: rest => exec rest (step op w)
  end.

(** [run allow ops w] executes [ops] as long as [allow] admits each call
    in the state it is made in. *)
Fixpoint run (allow : GameState -> Op -> bool) (ops : list Op) (w : World)
  : option World :=
  match ops with
  | [] => Some w
  | op :: rest =>
      if allow (game w) op then run allow rest (step op w) else None
  end.

End WithProvider.

(** Every call is admitted in every state. *)
Definition anyCall (_ : GameState) (_ : Op) : bool := true.

(** [submitGuess] is called on the game screen only; the other calls are
    not restricted. *)
Definition submitOnGameScreen (s : GameState) (op : Op) : bool :=
  match op, screen s with
  | SubmitGuess, Game => true
  | SubmitGuess, _ => false
  | _, _ => true
  end.

(** The screen that offers each call: App.jsx hands [startGame] to the
    title and the final-results screen, [placeMarker], [selectFloor] and
    [submitGuess] to the game screen, [nextRound] and [viewFinalResults]
    to the result screen (ResultScreen.jsx wires its button to one of the
    two according to the round; both are admitted here).  [resetGame],
    which the game screen, the final-results screen and the error panel
    offer, is admitted on every screen. *)
Definition offered (s : GameState) (op : Op) : bool :=
  match op, screen s with
  | ResetGame, _ => true
  | StartGame, (Title | FinalResults) => true
  | (PlaceMarker _ | SelectFloor _ | SubmitGuess), Game => true
  | (NextRound | ViewFinalResults), Result => true
  | _, _ => false
  end.

(** What the specification asks of the round counter, word for word.  A
    match is finished when all its rounds are recorded. *)
Definition finished (s : GameState) : Prop :=
  List.length (roundResults s) = TOTAL_ROUNDS.

Definition roundCounterClaim (s : GameState) : Prop :=
  ((screen s = Game \/ screen s = Result) -> ~ finished s ->
     currentRound s = (List.length (roundResults s) + 1)%nat)
  /\ (finished s -> currentRound s = TOTAL_ROUNDS).

(** What the specification asks of the current record. *)
Definition currentRecordClaim (s : GameState) : Prop :=
  currentResult s <> None <-> screen s = Result.

(** *** Invariants of guarded runs *)

(** As long as guesses are submitted from the game screen, the history
    never outgrows the round counter, and the counter stops at five. *)
Definition boundInv (w : World) : Prop :=
  (currentRound (game w) <= TOTAL_ROUNDS)%nat
  /\ (List.length (roundResults (game w)) <= currentRound (game w))%nat
  /\ (screen (game w) = Game ->
      (List.length (roundResults (game w)) < currentRound (game w))%nat).

(** When every call is made on the screen that offers it, the screen
    determines how the round counter, the history and the current record
    relate. *)
Definition offeredInv (w : World) : Prop :=
  let s := game w in
  match screen s with
  | Title =>
      roundResults s = [] /\ currentResult s = None
  | Game =>
      currentRound s = (List.length (roundResults s) + 1)%nat
      /\ (currentRound s <= TOTAL_ROUNDS)%nat
      /\ currentResult s = None
  | Result =>
      currentRound s = List.length (roundResults s)
      /\ (currentRound s <= TOTAL_ROUNDS)%nat
      /\ currentResult s <> None
  | FinalResults =>
      (currentRound s = List.length (roundResults s)
       /\ (currentRound s <= TOTAL_ROUNDS)%nat)
      \/ (currentRound s = 1%nat /\ roundResults s = [])
  end.

(** *** Final-results aggregation (FinalResultsScreen.jsx) *)

Definition totalScore (rounds : list RoundResult) : Z :=
  fold_left (fun sum round => sum + score round) rounds 0.

Definition maxPossible (rounds : list RoundResult) : Z :=
  Z.of_nat (List.length rounds) * 5000.

Definition performance (rounds : list RoundResult) : Rating.Tier :=
  Rating.getPerformanceRating
    (inject_Z (totalScore rounds)) (inject_Z (maxPossible rounds)).

End Session.

(* ================================================================= *)
(** ** Concrete sessions *)

Module Scenario.
Import Scoring Session.

(** The fifth sample image of imageService.js. *)
Definition sample5 : Image :=
  {| url := "https://images.unsplash.com/photo-1519452635265-7b1fbfd1e4e0?w=800&q=80";
     correctLocation := Some {| px := 50; py := 50 |};
     correctFloor := Some 2 |}.

(** A provider that always resolves. *)
Definition alwaysResolves (_ : nat) : option Image := Some sample5.

(** A provider whose first [n] calls resolve and whose later calls
    reject. *)
Definition rejectsAfter (n : nat) (k : nat) : option Image :=
  if (k <? n)%nat then Some sample5 else None.

Definition centre : Point := {| px := 50; py := 50 |}.

(** One round played on the game screen: marker, floor, submit. *)
Definition playRound : list Op :=
  [PlaceMarker centre; SelectFloor 2; SubmitGuess].

(** Start a match and submit the first guess. *)
Definition firstGuess : list Op := StartGame :: playRound.

(** Start a match, complete one guess, then submit five more times from
    the result screen. *)
Definition sixSubmits : list Op :=
  firstGuess ++ [SubmitGuess; SubmitGuess; SubmitGuess; SubmitGuess; SubmitGuess].

(** A whole match: five rounds, with [nextRound] between them. *)
Definition fiveRounds : list Op :=
  StartGame :: playRound ++ NextRound :: playRound ++ NextRound :: playRound
    ++ NextRound :: playRound ++ NextRound :: playRound.

(** A whole match followed by the "View Final Results" button. *)
Definition fullMatch : list Op := fiveRounds ++ [ViewFinalResults].

(** Submit the first guess, then ask for the next round. *)
Definition guessThenAdvance : list Op := firstGuess ++ [NextRound].

(** Start a match and place the marker, without choosing a floor. *)
Definition markerOnly : list Op := [StartGame; PlaceMarker centre].

End Scenario.

(* ================================================================= *)
(** ** The result screen (ResultScreen.jsx) *)

Module ResultScreen.
Import Scoring Session.

(** [calculateScore(distance)], the screen's own copy of the scoring
    law. *)
Definition calculateScore (distance : R) : Z :=
  let maxScore := 5000 in
  let decayRate := (5 / 100)%R in
  let score := Math_round (IZR maxScore * exp (- decayRate * distance))%R in
  Z.max 0 (Z.min maxScore score).

(** What [formatDistance] returns: the string ["Perfect!"] or the string
    made of a number of units and [" ft away"]. *)
Inductive DistanceLabel : Type :=
| PerfectLabel
| FeetAway (units : Z).

(** [formatDistance(distance)]; its last two branches return the same
    string. *)
Definition formatDistance (distance : R) : DistanceLabel :=
  let units := Math_round (distance * 2)%R in
  if units <? 5 then PerfectLabel
  else if units <? 20 then FeetAway units
  else FeetAway units.

(** The values the component computes from its props before rendering.
    Its [calculateDistance] is the text of the hook's. *)
Record Breakdown : Type := mkBreakdown {
  shownDistance : R;
  shownLocationScore : Z;
  shownFloorCorrect : bool;
  shownTotal : Z;
  shownPenalty : Z
}.

Definition breakdown (guessLocation : Point) (guessFloor : Z)
    (actualLocation : Point) (actualFloor : Z) : Breakdown :=
  let distance := calculateDistance guessLocation actualLocation in
  let locationScore := calculateScore distance in
  let floorCorrect := guessFloor =? actualFloor in
  let totalScore :=
    if floorCorrect then locationScore
    else Math_round (IZR locationScore * (8 / 10))%R in
  let floorPenalty :=
    if floorCorrect then 0
    else Math_round (IZR locationScore * (2 / 10))%R in
  {| shownDistance := distance; shownLocationScore := locationScore;
     shownFloorCorrect := floorCorrect; shownTotal := totalScore;
     shownPenalty := floorPenalty |}.

(** App.jsx hands the screen the fields of [currentResult]. *)
Definition ofResult (r : RoundResult) : Breakdown :=
  breakdown (res_guessLocation r) (res_guessFloor r)
            (actualLocation r) (actualFloor r).

(** The callback behind the screen's one button:
    [isLastRound ? onViewFinalResults : onNextRound]. *)
Definition buttonAction (isLastRound : bool) : Op :=
  if isLastRound then ViewFinalResults else NextRound.

End ResultScreen.

(* ================================================================= *)
(** ** The map picker (MapPicker.jsx) and the game screen
       (GameScreen.jsx, FloorSelector.jsx) *)

Module MapPicker.
Import Scoring.

(** The bounding rectangle of the map element. *)
Record Rect : Type := mkRect {
  rectLeft : R;
  rectTop : R;
  rectWidth : R;
  rectHeight : R
}.

(** [handleClick(event)]: what [onMapClick] is called with, [None] when
    the handler returns without calling it ([mapRef.current] is null). *)
Definition handleClick (mapRef : option Rect) (clientX clientY : R)
  : option Point :=
  match mapRef with
  | None => None
  | Some rect =>
      let x := ((clientX - rectLeft rect) / rectWidth rect * 100)%R in
      let y := ((clientY - rectTop rect) / rectHeight rect * 100)%R in
      let clampedX := Rmax 0 (Rmin 100 x) in
      let clampedY := Rmax 0 (Rmin 100 y) in
      Some {| px := clampedX; py := clampedY |}
  end.

(** A point of the map: both coordinates are percentages. *)
Definition onMap (p : Point) : Prop :=
  (0 <= px p <= 100)%R /\ (0 <= py p <= 100)%R.

End MapPicker.

Module GameScreen.
Import Scoring.

(** [canSubmit = guessLocation !== null && guessFloor !== null]; the
    Guess button is disabled without it. *)
Definition canSubmit (guessLocation : option Point) (guessFloor : option Z)
  : bool :=
  match guessLocation, guessFloor with
  | Some _, Some _ => true
  | _, _ => false
  end.

(** The floors the selector shows when it is given none. *)
Definition floors : list Z := [1; 2; 3; 4].

End GameScreen.

(* ================================================================= *)
(** ** What the application renders (App.jsx) *)

Module App.
Import Scoring Session.

Inductive Panel : Type :=
| ErrorPanel (message : string)
| TitlePanel
| GamePanel
| ResultPanel
| FinalResultsPanel
| LoadingSpinner.

(** JavaScript truthiness of the error cell: [null] and the empty string
    are falsy. *)
Definition truthyError (e : option string) : option string :=
  match e with
  | Some EmptyString => None
  | Some message => Some message
  | None => None
  end.

Definition isSome {A} (o : option A) : bool :=
  match o with Some _ => true | None => false end.

Definition onScreen (s : GameState) (sc : Screen) : bool :=
  match screen s, sc with
  | Title, Title | Game, Game | Result, Result
  | FinalResults, FinalResults => true
  | _, _ => false
  end.

Definition when (b : bool) (p : Panel) : list Panel :=
  if b then [p] else [].

(** The panels [App] returns for a state, in the order of the JSX. *)
Definition render (s : GameState) : list Panel :=
  match truthyError (error s) with
  | Some message => [ErrorPanel message]
  | None =>
      when (onScreen s Title) TitlePanel
      ++ when (onScreen s Game && isSome (currentImage s)) GamePanel
      ++ when (onScreen s Result && isSome (currentResult s)) ResultPanel
      ++ when (onScreen s FinalResults) FinalResultsPanel
      ++ when (onScreen s Game && negb (isSome (currentImage s))
               && isLoading s) LoadingSpinner
  end.

(** The calls a rendered panel can make.  The map picker can send any
    point (it sends clamped ones); the floor selector sends one of its
    floors; the Guess button is disabled unless [canSubmit]; the Start
    button of the title screen is disabled while loading; the result
    screen has one button, chosen by [isLastRound]. *)
Definition panelOffers (s : GameState) (panel : Panel) (op : Op) : bool :=
  match panel, op with
  | ErrorPanel _, ResetGame => true
  | TitlePanel, StartGame => negb (isLoading s)
  | GamePanel, PlaceMarker _ => true
  | GamePanel, SelectFloor floor =>
      existsb (Z.eqb floor) GameScreen.floors
  | GamePanel, SubmitGuess =>
      GameScreen.canSubmit (guessLocation s) (guessFloor s)
  | GamePanel, ResetGame => true
  | ResultPanel, NextRound =>
      negb (TOTAL_ROUNDS <=? currentRound s)%nat
  | ResultPanel, ViewFinalResults =>
      (TOTAL_ROUNDS <=? currentRound s)%nat
  | FinalResultsPanel, StartGame => true
  | FinalResultsPanel, ResetGame => true
  | _, _ => false
  end.

(** A call is possible through the interface when a rendered panel
    offers it. *)
Definition uiOffers (s : GameState) (op : Op) : bool :=
  existsb (fun panel => panelOffers s panel op) (render s).

End App.

(* ================================================================= *)
(** ** The image service (imageService.js) *)

Module ImageService.
Import Scoring Session.

(** [SAMPLE_IMAGES], without the [id] and [description] fields, which
    the game never reads. *)
Definition SAMPLE_IMAGES : list Image :=
  [ {| url := "https://images.unsplash.com/photo-1562774053-701939374585?w=800&q=80";
       correctLocation := Some {| px := 35; py := 45 |};
       correctFloor := Some 2 |};
    {| url := "https://images.unsplash.com/photo-1541829070764-84a7d30dd3f3?w=800&q=80";
       correctLocation := Some {| px := 65; py := 30 |};
       correctFloor := Some 1 |};
    {| url := "https://images.unsplash.com/photo-1580582932707-520aed937b7b?w=800&q=80";
       correctLocation := Some {| px := 80; py := 60 |};
       correctFloor := Some 1 |};
    {| url := "https://images.unsplash.com/photo-1497633762265-9d179a990aa6?w=800&q=80";
       correctLocation := Some {| px := 25; py := 75 |};
       correctFloor := Some 3 |};
    {| url := "https://images.unsplash.com/photo-1519452635265-7b1fbfd1e4e0?w=800&q=80";
       correctLocation := Some {| px := 50; py := 50 |};
       correctFloor := Some 2 |} ].

(** [array[i]]: [undefined] outside the array. *)
Definition item {A} (array : list A) (i : Z) : option A :=
  if i <? 0 then None else nth_error array (Z.to_nat i).

(** [Math.floor(Math.random() * array.length)], with the value of
    [Math.random()] as an argument. *)
Definition randomIndex {A} (random : R) (array : list A) : Z :=
  Zfloor (random * IZR (Z.of_nat (List.length array)))%R.

(** [getRandomSampleImage()]. *)
Definition getRandomSampleImage (random : R) : option Image :=
  item SAMPLE_IMAGES (randomIndex random SAMPLE_IMAGES).

(** What Firestore answers to [getDocs]: it fails, or it delivers the
    documents of the collection. *)
Inductive Firestore : Type :=
| Unavailable
| Snapshot (docs : list Image).

Inductive Completion (A : Type) : Type :=
| Returned (a : A)
| Threw.
Arguments Returned {A} a.
Arguments Threw {A}.

(** The [try] block of [getRandomImage]. *)
Definition fromFirestore (firestore : Firestore) (random : R)
  : Completion (option Image) :=
  match firestore with
  | Unavailable => Threw
  | Snapshot [] => Returned (getRandomSampleImage random)
  | Snapshot images => Returned (item images (randomIndex random images))
  end.

(** [getRandomImage()]: the [catch] block falls back to the samples.
    Each path calls [Math.random] once. *)
Definition getRandomImage (firestore : Firestore) (random : R)
  : Completion (option Image) :=
  match fromFirestore firestore random with
  | Returned image => Returned image
  | Threw => Returned (getRandomSampleImage random)
  end.

(** The service as the session's provider: call [n] meets the Firestore
    answer [firestore n] and the random number [random n].  A promise
    that rejects, or resolves to no image, is [None]. *)
Definition asProvider (firestore : nat -> Firestore) (random : nat -> R)
    (n : nat) : option Image :=
  match getRandomImage (firestore n) (random n) with
  | Returned (Some image) => Some image
  | _ => None
  end.

End ImageService.

(* ================================================================= *)
(** ** Orders, counters and invariants used by the further facts *)

Module Further.
Import Scoring Session.

(** The ratings from the lowest to the highest. *)
Definition tierRank (t : Rating.Tier) : nat :=
  match t with
  | Rating.Beginner => 0
  | Rating.KeepPracticing => 1
  | Rating.Good => 2
  | Rating.Great => 3
  | Rating.Excellent => 4
  | Rating.Perfect => 5
  end.

(** The percentage as the specification defines it: 0 for a zero
    maximum. *)
Definition percentageAsSpecified (total max : Q) : Q :=
  if Qeq_bool max 0 then 0%Q else (total / max * 100)%Q.

(** The calls that can reach the provider. *)
Definition mayFetch (op : Op) : bool :=
  match op with
  | StartGame | NextRound => true
  | _ => false
  end.

Definition clearsHistory (op : Op) : bool :=
  match op with
  | StartGame | ResetGame => true
  | _ => false
  end.

(** A record as [submitGuess] makes them. *)
Definition wellScored (r : RoundResult) : Prop :=
  0 <= score r /\ score r <= locationScore r /\ locationScore r <= 5000.

(** A record that came out of [submitGuess]. *)
Definition built (r : RoundResult) : Prop :=
  exists round image guess floor,
    r = buildResult round image guess floor.

Definition allBuilt (s : GameState) : Prop :=
  Forall built (roundResults s)
  /\ (forall r, currentResult s = Some r -> built r).

(** The current record, when there is one, ends the history. *)
Definition currentIsLast (s : GameState) : Prop :=
  forall r, currentResult s = Some r ->
            exists earlier, roundResults s = earlier ++ [r].

(** What every completed call preserves. *)
Definition settled (w : World) : Prop :=
  allBuilt (game w) /\ currentIsLast (game w) /\ isLoading (game w) = false.

(** The records of the history carry the numbers 1, 2, 3, ... *)
Definition numbered (s : GameState) : Prop :=
  List.map roundNumber (roundResults s)
  = seq 1 (List.length (roundResults s)).

(** On the game and the result screen there is an image. *)
Definition imageShown (s : GameState) : Prop :=
  screen s = Game \/ screen s = Result -> currentImage s <> None.

(** The panel that belongs to a screen. *)
Definition panelOf (sc : Screen) : App.Panel :=
  match sc with
  | Title => App.TitlePanel
  | Game => App.GamePanel
  | Result => App.ResultPanel
  | FinalResults => App.FinalResultsPanel
  end.

(** The error cell holds nothing or the one message of the hook. *)
Definition errorKnown (s : GameState) : Prop :=
  error s = None \/ error s = Some loadFailure.

(** What holds in the states the interface leads to: nothing is loading,
    the chosen floor is one of the selector's, and, as long as no error
    is shown, the round counter and the history agree with the screen. *)
Definition uiInv (w : World) : Prop :=
  let s := game w in
  isLoading s = false
  /\ (forall f, guessFloor s = Some f -> In f GameScreen.floors)
  /\ (error s = None \/ error s = Some loadFailure)
  /\ (error s = None ->
      match screen s with
      | Title => roundResults s = []
      | Game =>
          currentRound s = (List.length (roundResults s) + 1)%nat
          /\ (currentRound s <= TOTAL_ROUNDS)%nat
          /\ currentImage s <> None
      | Result =>
          currentRound s = List.length (roundResults s)
          /\ (currentRound s <= TOTAL_ROUNDS)%nat
          /\ currentResult s <> None
      | FinalResults =>
          currentRound s = TOTAL_ROUNDS
          /\ List.length (roundResults s) = TOTAL_ROUNDS
      end).

End Further.

(* ================================================================= *)
(** ** The hook with its fetches in flight *)

Module Async.
Import Scoring Session Further.

(** [startGame] and [nextRound] are [async]: they run up to their
    [await], commit what they have set, and go on when the promise of
    [getRandomImage] settles.  Other calls, and other settlements, can
    come in between. *)
Inductive Continuation : Type :=
| ResumeStartGame
| ResumeNextRound.

(** A suspended callback and the provider call it waits for. *)
Record Suspended : Type := mkSuspended {
  continuation : Continuation;
  fetch : nat
}.

(** The hook's state and the callbacks suspended at their [await]. *)
Record Hook : Type := mkHook {
  world : World;
  suspended : list Suspended
}.

Definition initialHook : Hook :=
  {| world := initialWorld; suspended := [] |}.

(** [getRandomImage()] is called: the call is counted; its promise
    settles later. *)
Definition callProvider : Action nat :=
  fun w => (calls w, {| game := game w; calls := S (calls w) |}).

(** What a callback does when it is called, up to its [await] if it has
    one (l.198-207 for [startGame]; l.279-291 with l.178-183 for
    [nextRound]).  The result is the suspension, if any. *)
Definition begin (op : Op) : Action (option Suspended) :=
  match op with
  | StartGame =>
      startGame_begin ;;
      n <- callProvider ;;
      ret (Some {| continuation := ResumeStartGame; fetch := n |})
  | NextRound =>
      s <- getState ;;
      if (TOTAL_ROUNDS <=? currentRound s)%nat then
        setScreen FinalResults ;;
        ret None
      else
        setCurrentRound (fun prev => (prev + 1)%nat) ;;
        setCurrentResult None ;;
        loadNewImage_begin ;;
        n <- callProvider ;;
        ret (Some {| continuation := ResumeNextRound; fetch := n |})
  | PlaceMarker coords => placeMarker coords ;; ret None
  | SelectFloor floor => selectFloor floor ;; ret None
  | SubmitGuess => submitGuess ;; ret None
  | ViewFinalResults => viewFinalResults ;; ret None
  | ResetGame => resetGame ;; ret None
  end.

(** What a suspended callback does once its promise has settled
    (l.208-217 for [startGame]; l.184-192 and l.292 for [nextRound]).
    The continuations only call setters; they read no state. *)
Definition resume (c : Continuation) (outcome : option Image)
  : Action unit :=
  match c with
  | ResumeStartGame => startGame_resume outcome
  | ResumeNextRound => loadNewImage_resume outcome ;; setScreen Game
  end.

(** What happens to the hook: a callback is called, or the promise of
    the [i]-th suspended callback settles. *)
Inductive Event : Type :=
| Invoke (op : Op)
| Settle (i : nat).

Fixpoint removeAt {A} (i : nat) (l : list A) : list A :=
  match l, i with
  | [], _ => []
  | _ :: rest, O => rest
  | x :: rest, S j => x :: removeAt j rest
  end.

Section WithProvider.

Variable provider : nat -> option Image.

Definition react (e : Event) (h : Hook) : Hook :=
  match e with
  | Invoke op =>
      let (s, w) := begin op (world h) in
      {| world := w;
         suspended :=
           suspended h ++ match s with Some s => [s] | None => [] end |}
  | Settle i =>
      match nth_error (suspended h) i with
      | Some s =>
          {| world :=
               snd (resume (continuation s) (provider (fetch s)) (world h));
             suspended := removeAt i (suspended h) |}
      | None => h
      end
  end.

Fixpoint play (events : list Event) (h : Hook) : Hook :=
  match events with
  | [] => h
  | e :: rest => play rest (react e h)
  end.

(** [playGuarded allow events h] lets the events happen as long as
    [allow] admits each one in the state it meets. *)
Fixpoint playGuarded (allow : Hook -> Event -> bool)
    (events : list Event) (h : Hook) : option Hook :=
  match events with
  | [] => Some h
  | e :: rest =>
      if allow h e then playGuarded allow rest (react e h) else None
  end.

End WithProvider.

(** No fetch is in flight. *)
Definition quiet (h : Hook) : bool :=
  match suspended h with
  | [] => true
  | _ => false
  end.

(** Calls are made one at a time: a call is admitted when no fetch is in
    flight and [allow] admits it; a promise may settle at any moment. *)
Definition oneAtATime (allow : GameState -> Op -> bool)
    (h : Hook) (e : Event) : bool :=
  match e with
  | Invoke op => quiet h && allow (game (world h)) op
  | Settle _ => true
  end.

(** Calls are admitted by [allow] alone, fetches in flight or not. *)
Definition anyTime (allow : GameState -> Op -> bool)
    (h : Hook) (e : Event) : bool :=
  match e with
  | Invoke op => allow (game (world h)) op
  | Settle _ => true
  end.

(** Where a hook driven one call at a time can be, for an invariant [Q]
    of completed calls: at rest in a state of [Q], or suspended in the
    one callback that was called in a state of [Q]. *)
Definition stage (Q : World -> Prop) (allow : GameState -> Op -> bool)
    (h : Hook) : Prop :=
  (suspended h = [] /\ Q (world h))
  \/ (exists w0 op s,
        Q w0 /\ allow (game w0) op = true
        /\ begin op w0 = (Some s, world h)
        /\ suspended h = [s]).

(** On the final-results screen a history that is not empty comes with
    its current record. *)
Definition finalRecord (s : GameState) : Prop :=
  screen s = FinalResults -> roundResults s <> [] ->
  currentResult s <> None.

(** What completed calls made on the offering screens preserve. *)
Definition screensInv (w : World) : Prop :=
  offeredInv w /\ settled w /\ numbered (game w)
  /\ imageShown (game w) /\ errorKnown (game w) /\ finalRecord (game w).

(** What completed calls made through the interface preserve. *)
Definition interfaceInv (w : World) : Prop :=
  uiInv w /\ offeredInv w /\ numbered (game w).

(** The panels of a state: the error panel; nothing while the result
    screen waits for the next image; else the panel of the screen. *)
Definition expectedPanels (s : GameState) : list App.Panel :=
  match error s with
  | Some _ => [App.ErrorPanel loadFailure]
  | None =>
      if App.onScreen s Result && isLoading s then []
      else [panelOf (screen s)]
  end.

(** The course of events in which every call is completed, its fetch
    settled, before the next call is made. *)
Definition completeEach (ops : list Op) : list Event :=
  flat_map (fun op => [Invoke op; Settle 0]) ops.

Definition atRest (w : World) : Hook := {| world := w; suspended := [] |}.

(** *** Concrete courses of events *)

Definition invokeAll (ops : list Op) : list Event := List.map Invoke ops.

(** A round on the game screen, then the next round with its fetch. *)
Definition roundThenNext : list Event :=
  invokeAll Scenario.playRound ++ [Invoke NextRound; Settle 0].

(** A whole match, one call at a time, up to the fifth result. *)
Definition matchOneAtATime : list Event :=
  [Invoke StartGame; Settle 0]
  ++ roundThenNext ++ roundThenNext ++ roundThenNext ++ roundThenNext
  ++ invokeAll Scenario.playRound.

(** The first guess, then Next Round with its fetch still in flight. *)
Definition waitingForNext : list Event :=
  [Invoke StartGame; Settle 0] ++ invokeAll Scenario.playRound
  ++ [Invoke NextRound].

(** [startGame] called twice; the second fetch resolves only after the
    first round has been played, and the match goes on to its fifth
    round.  Every call is made on the screen that offers it. *)
Definition lateSecondStart : list Event :=
  [Invoke StartGame; Invoke StartGame; Settle 0]
  ++ invokeAll Scenario.playRound
  ++ [Settle 0]
  ++ roundThenNext ++ roundThenNext ++ roundThenNext ++ roundThenNext
  ++ invokeAll Scenario.playRound.

End Async.

(* ================================================================= *)
(** ** Facts about the scoring engine *)

Module ScoringFacts.
Import Scoring.

Lemma Math_round_nearest (x : R) :
  (x - / 2 < IZR (Math_round x) <= x + / 2)%R.
Proof.
  unfold Math_round.
  destruct (Zfloor_bound (x + / 2)%R) as [Hlo Hhi]. lra.
Qed.

Lemma Math_round_IZR (z : Z) : Math_round (IZR z) = z.
Proof.
  unfold Math_round. apply Zfloor_eq. lra.
Qed.

Lemma Math_round_le (x y : R) : (x <= y)%R -> Math_round x <= Math_round y.
Proof.
  intro H. unfold Math_round. apply Zfloor_le. lra.
Qed.

(** [Math.max(0, Math.min(hi, x))] is the clamp to [[0, hi]]. *)
Lemma max_min_is_clamp (hi x : Z) :
  0 <= hi -> Z.max 0 (Z.min hi x) = clamp 0 hi x.
Proof.
  intro Hhi. unfold clamp.
  destruct (Z.ltb_spec x 0); destruct (Z.ltb_spec hi x); lia.
Qed.

Lemma calculateLocationScore_range (d : R) :
  0 <= calculateLocationScore d <= 5000.
Proof.
  unfold calculateLocationScore, maxScore. lia.
Qed.

(** Multiplying an integer by 0.8 and rounding is an integer division. *)
Lemma Math_round_four_fifths (s : Z) :
  Math_round (IZR s * (8 / 10))%R = (8 * s + 5) / 10.
Proof.
  unfold Math_round. apply Zfloor_eq.
  pose proof (Z.div_mod (8 * s + 5) 10 ltac:(lia)) as Hdm.
  pose proof (Z.mod_pos_bound (8 * s + 5) 10 ltac:(lia)) as Hb.
  set (q := (8 * s + 5) / 10) in *.
  set (r := (8 * s + 5) mod 10) in *.
  assert (Hs : (IZR (8 * s + 5) = 10 * IZR q + IZR r)%R).
  { rewrite Hdm, plus_IZR, mult_IZR. reflexivity. }
  rewrite plus_IZR, mult_IZR in Hs.
  assert (0 <= IZR r < 10)%R as [Hr0 Hr1].
  { split; [apply IZR_le | apply IZR_lt]; lia. }
  lra.
Qed.

(** From distance zero on the clamp never cuts: the rounded value already
    lies between 0 and 5000. *)
Lemma calculateLocationScore_unclamped (d : R) :
  (0 <= d)%R ->
  calculateLocationScore d = Math_round (5000 * exp (- (5 / 100) * d))%R.
Proof.
  intro Hd. unfold calculateLocationScore, maxScore, decayRate.
  set (v := (5000 * exp (- (5 / 100) * d))%R).
  assert (Hpos : (0 < v)%R).
  { unfold v. pose proof (exp_pos (- (5 / 100) * d)). lra. }
  assert (Hle : (v <= 5000)%R).
  { unfold v.
    assert (exp (- (5 / 100) * d) <= 1)%R.
    { rewrite <- exp_0.
      destruct (Req_dec d 0) as [-> | Hne].
      - right. f_equal. lra.
      - left. apply exp_increasing. lra. }
    lra. }
  assert (H0 : 0 <= Math_round v).
  { pose proof (Math_round_le 0 v ltac:(lra)) as H.
    rewrite (Math_round_IZR 0) in H. exact H. }
  assert (H1 : Math_round v <= 5000).
  { rewrite <- (Math_round_IZR 5000). apply Math_round_le. exact Hle. }
  lia.
Qed.

Lemma locationScore_at_zero : calculateLocationScore 0 = 5000.
Proof.
  rewrite calculateLocationScore_unclamped by lra.
  replace (- (5 / 100) * 0)%R with 0%R by lra.
  rewrite exp_0, Rmult_1_r. apply Math_round_IZR.
Qed.

(** Claim C1.  For every distance [d], [calculateLocationScore d] is
    [Math.round(5000 * exp(-0.05 * d))] clamped to the interval
    [[0, 5000]], and the score of distance zero is 5000. *)
Theorem locationScore_formula :
  (forall d : R,
     calculateLocationScore d
     = clamp 0 5000 (Math_round (5000 * exp (- (5 / 100) * d))%R))
  /\ calculateLocationScore 0 = 5000.
Proof.
  split.
  - intro d. unfold calculateLocationScore, maxScore, decayRate.
    apply max_min_is_clamp. lia.
  - exact locationScore_at_zero.
Qed.

(** Claim C2.  For every integer location score [s] the round score is
    [s] when the floors match and [Math.round(s * 0.8)] when they do not,
    which is the integer nearest to four fifths of [s], [(8 s + 5) / 10]
    rounded down; 5000 with a wrong floor gives 4000; and the [score]
    field of the record [submitGuess] builds is that round score, with
    [floorCorrect] the comparison of the guessed floor with the target
    floor. *)
Theorem roundScore_floor_penalty :
  (forall s : Z,
     roundScore s true = s
     /\ roundScore s false = Math_round (IZR s * (8 / 10))%R
     /\ roundScore s false = (8 * s + 5) / 10)
  /\ roundScore 5000 false = 4000
  /\ (forall round image guess floor,
        let r := Session.buildResult round image guess floor in
        Session.floorCorrect r = (floor =? Session.actualFloor r)
        /\ Session.score r
           = roundScore (Session.locationScore r) (Session.floorCorrect r)).
Proof.
  split; [| split].
  - intro s. split; [reflexivity | split; [reflexivity |]].
    apply Math_round_four_fifths.
  - unfold roundScore. rewrite Math_round_four_fifths. reflexivity.
  - intros round image guess floor r. split; reflexivity.
Qed.

End ScoringFacts.

(* ================================================================= *)
(** ** Facts about the rating helper *)

Module RatingFacts.
Import Rating.

Local Open Scope Q_scope.

Lemma js_ge_Finite (q c : Q) : js_ge (Finite q) c = true <-> c <= q.
Proof. simpl. apply Qle_bool_iff. Qed.

Lemma js_ge_Finite_false (q c : Q) : js_ge (Finite q) c = false <-> q < c.
Proof.
  simpl. split; intro H.
  - apply Qnot_le_lt. intro Hle. apply Qle_bool_iff in Hle. congruence.
  - destruct (Qle_bool c q) eqn:E; [| reflexivity].
    apply Qle_bool_iff in E. exfalso. exact (Qlt_not_le _ _ H E).
Qed.

(** A percentage that misses a threshold misses every higher one. *)
Lemma below_threshold (x : jsnum) (c c' : Q) :
  Qle_bool c c' = true -> js_ge x c = false -> js_ge x c' = false.
Proof.
  intros Hcc Hx. destruct x as [q | | |]; try reflexivity; try discriminate Hx.
  apply js_ge_Finite_false. apply js_ge_Finite_false in Hx.
  apply Qle_bool_iff in Hcc. eapply Qlt_le_trans; eassumption.
Qed.

Lemma percentage_finite (total max : Q) :
  ~ max == 0 ->
  js_mul (js_div total max) 100 = Finite (total / max * 100).
Proof.
  intro Hmax. unfold js_div.
  destruct (Qeq_bool max 0) eqn:E.
  - apply Qeq_bool_iff in E. contradiction.
  - reflexivity.
Qed.

(** The rating as the specification words it, for a finite percentage:
    the first threshold, from the top, that the percentage reaches. *)
Lemma rating_of_percentage (total max : Q) :
  ~ max == 0 ->
  let p := total / max * 100 in
  (95 <= p -> getPerformanceRating total max = Perfect)
  /\ (80 <= p -> p < 95 -> getPerformanceRating total max = Excellent)
  /\ (60 <= p -> p < 80 -> getPerformanceRating total max = Great)
  /\ (40 <= p -> p < 60 -> getPerformanceRating total max = Good)
  /\ (20 <= p -> p < 40 -> getPerformanceRating total max = KeepPracticing)
  /\ (p < 20 -> getPerformanceRating total max = Beginner).
Proof.
  intros Hmax p. unfold getPerformanceRating.
  rewrite (percentage_finite total max Hmax). fold p.
  repeat split; intros;
    repeat match goal with
    | H : (?c <= p)%Q |- _ => apply (js_ge_Finite p c) in H
    | H : (p < ?c)%Q |- _ => apply (js_ge_Finite_false p c) in H
    end.
  - rewrite H. reflexivity.
  - rewrite H0, H. reflexivity.
  - rewrite (below_threshold _ 80 95), H0, H by (assumption || reflexivity).
    reflexivity.
  - pose proof (below_threshold _ 60 80 eq_refl H0) as H80.
    rewrite (below_threshold _ 80 95), H80, H0, H
      by (assumption || reflexivity).
    reflexivity.
  - pose proof (below_threshold _ 40 60 eq_refl H0) as H60.
    pose proof (below_threshold _ 60 80 eq_refl H60) as H80.
    rewrite (below_threshold _ 80 95), H80, H60, H0, H
      by (assumption || reflexivity).
    reflexivity.
  - pose proof (below_threshold _ 20 40 eq_refl H) as H40.
    pose proof (below_threshold _ 40 60 eq_refl H40) as H60.
    pose proof (below_threshold _ 60 80 eq_refl H60) as H80.
    rewrite (below_threshold _ 80 95), H80, H60, H40, H
      by (assumption || reflexivity).
    reflexivity.
Qed.

(** Without a guard, a zero maximum makes the percentage [NaN] or an
    infinity. *)
Lemma rating_of_zero_max (total max : Q) :
  max == 0 ->
  (total <= 0 -> getPerformanceRating total max = Beginner)
  /\ (0 < total -> getPerformanceRating total max = Perfect).
Proof.
  intro Hmax. unfold getPerformanceRating, js_div.
  apply Qeq_bool_iff in Hmax. rewrite Hmax.
  split; intro H.
  - destruct (total ?= 0) eqn:E; try reflexivity.
    apply Qgt_alt in E. exfalso. exact (Qlt_not_le _ _ E H).
  - apply Qgt_alt in H. rewrite H. reflexivity.
Qed.

(** The one caller, [FinalResultsScreen], passes a zero maximum only
    together with a zero total: both come from the empty history. *)
Lemma zero_max_has_zero_total (rounds : list Session.RoundResult) :
  inject_Z (Session.maxPossible rounds) == 0 ->
  inject_Z (Session.totalScore rounds) == 0.
Proof.
  unfold Session.maxPossible, Qeq. simpl. intro H.
  destruct rounds as [| r rest].
  - reflexivity.
  - cbn [List.length] in H. lia.
Qed.

(** Claim C9.  For every total and maximum the function can be given (a
    zero maximum only with a zero total, as its caller does), the rating
    is the first of the thresholds 95, 80, 60, 40, 20 (inclusive lower
    bounds) that the percentage reaches, and Beginner below 20, where
    the percentage is [total / max * 100], and 0 for a zero maximum.
    The code reaches the rating of a zero maximum without a guard: 0 / 0
    is [NaN], which fails every comparison as 0 does. *)
Theorem rating_as_specified :
  (forall total max : Q,
     (max == 0 -> total == 0) ->
     let p := Further.percentageAsSpecified total max in
     (95 <= p -> getPerformanceRating total max = Perfect)
     /\ (80 <= p -> p < 95 -> getPerformanceRating total max = Excellent)
     /\ (60 <= p -> p < 80 -> getPerformanceRating total max = Great)
     /\ (40 <= p -> p < 60 -> getPerformanceRating total max = Good)
     /\ (20 <= p -> p < 40 ->
         getPerformanceRating total max = KeepPracticing)
     /\ (p < 20 -> getPerformanceRating total max = Beginner)
     /\ (max == 0 -> p == 0 /\ getPerformanceRating total max = Beginner))
  /\ (forall rounds : list Session.RoundResult,
        inject_Z (Session.maxPossible rounds) == 0 ->
        inject_Z (Session.totalScore rounds) == 0).
Proof.
  split; [| exact zero_max_has_zero_total].
  intros total max Hrecv p. unfold p, Further.percentageAsSpecified.
  destruct (Qeq_bool max 0) eqn:E.
  - apply Qeq_bool_iff in E.
    assert (Hb : getPerformanceRating total max = Beginner).
    { destruct (rating_of_zero_max total max E) as [Hle _].
      apply Hle. rewrite (Hrecv E). apply Qle_refl. }
    repeat split; intros; try exact Hb; try reflexivity;
      match goal with
      | H : (_ <= 0)%Q |- _ => exfalso; unfold Qle in H; simpl in H; lia
      end.
  - assert (Hne : ~ max == 0).
    { intro H. apply Qeq_bool_iff in H. congruence. }
    destruct (rating_of_percentage total max Hne)
      as (H95 & H80 & H60 & H40 & H20 & H0).
    split; [exact H95 |]. split; [exact H80 |]. split; [exact H60 |].
    split; [exact H40 |]. split; [exact H20 |]. split; [exact H0 |].
    intro Hz. contradiction.
Qed.

(** Claim C9 at 20000 of 25000 (exactly 80 percent: Excellent) and at
    the empty history (0 of 0: Beginner). *)
Lemma rating_as_specified_witness :
  getPerformanceRating 20000 25000 = Excellent
  /\ getPerformanceRating 0 0 = Beginner.
Proof.
  destruct rating_as_specified as [H _].
  split.
  - destruct (H 20000 25000) as (_ & Hex & _).
    + intro E. discriminate E.
    + apply Hex.
      * intro E. vm_compute in E. discriminate E.
      * reflexivity.
  - destruct (H 0 0) as (_ & _ & _ & _ & _ & _ & Hz).
    + intros _. reflexivity.
    + apply Hz. reflexivity.
Defined.

End RatingFacts.

(* ================================================================= *)
(** ** Facts about the session state machine *)

Module SessionFacts.
Import Scoring Session.

Section Callbacks.

Variable provider : nat -> option Image.

(** *** What each callback leaves behind *)

Lemma step_placeMarker (coords : Point) (w : World) :
  step provider (PlaceMarker coords) w
  = {| game := {| screen := screen (game w);
                  currentRound := currentRound (game w);
                  currentImage := currentImage (game w);
                  guessLocation := Some coords;
                  guessFloor := guessFloor (game w);
                  currentResult := currentResult (game w);
                  roundResults := roundResults (game w);
                  isLoading := isLoading (game w);
                  error := error (game w) |};
       calls := calls w |}.
Proof. reflexivity. Qed.

Lemma step_selectFloor (floor : Z) (w : World) :
  step provider (SelectFloor floor) w
  = {| game := {| screen := screen (game w);
                  currentRound := currentRound (game w);
                  currentImage := currentImage (game w);
                  guessLocation := guessLocation (game w);
                  guessFloor := Some floor;
                  currentResult := currentResult (game w);
                  roundResults := roundResults (game w);
                  isLoading := isLoading (game w);
                  error := error (game w) |};
       calls := calls w |}.
Proof. reflexivity. Qed.

Lemma step_viewFinalResults (w : World) :
  step provider ViewFinalResults w
  = {| game := {| screen := FinalResults;
                  currentRound := currentRound (game w);
                  currentImage := currentImage (game w);
                  guessLocation := guessLocation (game w);
                  guessFloor := guessFloor (game w);
                  currentResult := currentResult (game w);
                  roundResults := roundResults (game w);
                  isLoading := isLoading (game w);
                  error := error (game w) |};
       calls := calls w |}.
Proof. reflexivity. Qed.

Lemma step_resetGame (w : World) :
  step provider ResetGame w
  = {| game := {| screen := Title; currentRound := 1; currentImage := None;
                  guessLocation := None; guessFloor := None;
                  currentResult := None; roundResults := [];
                  isLoading := isLoading (game w); error := None |};
       calls := calls w |}.
Proof. reflexivity. Qed.

(** The synchronous part of [startGame], before the fetch is awaited. *)
Lemma startGame_begin_eq (w : World) :
  snd (startGame_begin w)
  = {| game := {| screen := screen (game w); currentRound := 1;
                  currentImage := currentImage (game w);
                  guessLocation := guessLocation (game w);
                  guessFloor := guessFloor (game w);
                  currentResult := None; roundResults := [];
                  isLoading := true; error := None |};
       calls := calls w |}.
Proof. reflexivity. Qed.

Lemma step_startGame_resolved (w : World) (image : Image) :
  provider (calls w) = Some image ->
  step provider StartGame w
  = {| game := {| screen := Game; currentRound := 1;
                  currentImage := Some image;
                  guessLocation := None; guessFloor := None;
                  currentResult := None; roundResults := [];
                  isLoading := false; error := None |};
       calls := S (calls w) |}.
Proof.
  intro Hp. unfold step, perform, startGame, bind, getRandomImage.
  cbn [startGame_begin fst snd]. simpl. rewrite Hp. reflexivity.
Qed.

Lemma step_startGame_rejected (w : World) :
  provider (calls w) = None ->
  step provider StartGame w
  = {| game := {| screen := screen (game w); currentRound := 1;
                  currentImage := currentImage (game w);
                  guessLocation := guessLocation (game w);
                  guessFloor := guessFloor (game w);
                  currentResult := None; roundResults := [];
                  isLoading := false; error := Some loadFailure |};
       calls := S (calls w) |}.
Proof.
  intro Hp. unfold step, perform, startGame, bind, getRandomImage.
  simpl. rewrite Hp. reflexivity.
Qed.

Lemma step_submitGuess_incomplete (w : World) :
  guessLocation (game w) = None
  \/ truthyFloor (guessFloor (game w)) = None
  \/ currentImage (game w) = None ->
  step provider SubmitGuess w = w.
Proof.
  intro H. unfold step, perform, submitGuess, bind, getState.
  destruct (guessLocation (game w)) as [g |];
    destruct (truthyFloor (guessFloor (game w))) as [f |];
    destruct (currentImage (game w)) as [i |];
    try reflexivity.
  destruct H as [H | [H | H]]; discriminate H.
Qed.

Lemma step_submitGuess_complete (w : World) guess floor image :
  guessLocation (game w) = Some guess ->
  truthyFloor (guessFloor (game w)) = Some floor ->
  currentImage (game w) = Some image ->
  let result := buildResult (currentRound (game w)) image guess floor in
  step provider SubmitGuess w
  = {| game := {| screen := Result;
                  currentRound := currentRound (game w);
                  currentImage := currentImage (game w);
                  guessLocation := guessLocation (game w);
                  guessFloor := guessFloor (game w);
                  currentResult := Some result;
                  roundResults := roundResults (game w) ++ [result];
                  isLoading := isLoading (game w);
                  error := error (game w) |};
       calls := calls w |}.
Proof.
  intros Hg Hf Hi result.
  destruct w as [[sc rd im gl gf cr rr ld er] c].
  cbn [game guessLocation guessFloor currentImage] in Hg, Hf, Hi.
  subst gl im.
  unfold step, perform, submitGuess, bind, getState.
  cbn [game guessLocation guessFloor currentImage].
  rewrite Hf. reflexivity.
Qed.

Lemma step_nextRound_last (w : World) :
  (TOTAL_ROUNDS <= currentRound (game w))%nat ->
  step provider NextRound w
  = {| game := {| screen := FinalResults;
                  currentRound := currentRound (game w);
                  currentImage := currentImage (game w);
                  guessLocation := guessLocation (game w);
                  guessFloor := guessFloor (game w);
                  currentResult := currentResult (game w);
                  roundResults := roundResults (game w);
                  isLoading := isLoading (game w);
                  error := error (game w) |};
       calls := calls w |}.
Proof.
  intro H. unfold step, perform, nextRound, bind, getState.
  apply Nat.leb_le in H. rewrite H. reflexivity.
Qed.

Lemma step_nextRound_resolved (w : World) (image : Image) :
  (currentRound (game w) < TOTAL_ROUNDS)%nat ->
  provider (calls w) = Some image ->
  step provider NextRound w
  = {| game := {| screen := Game;
                  currentRound := currentRound (game w) + 1;
                  currentImage := Some image;
                  guessLocation := None; guessFloor := None;
                  currentResult := None;
                  roundResults := roundResults (game w);
                  isLoading := false; error := None |};
       calls := S (calls w) |}.
Proof.
  intros H Hp. unfold step, perform, nextRound, bind, getState.
  apply Nat.leb_gt in H. rewrite H.
  unfold loadNewImage, bind, getRandomImage. simpl. rewrite Hp. reflexivity.
Qed.

Lemma step_nextRound_rejected (w : World) :
  (currentRound (game w) < TOTAL_ROUNDS)%nat ->
  provider (calls w) = None ->
  step provider NextRound w
  = {| game := {| screen := Game;
                  currentRound := currentRound (game w) + 1;
                  currentImage := currentImage (game w);
                  guessLocation := guessLocation (game w);
                  guessFloor := guessFloor (game w);
                  currentResult := None;
                  roundResults := roundResults (game w);
                  isLoading := false; error := Some loadFailure |};
       calls := S (calls w) |}.
Proof.
  intros H Hp. unfold step, perform, nextRound, bind, getState.
  apply Nat.leb_gt in H. rewrite H.
  unfold loadNewImage, bind, getRandomImage. simpl. rewrite Hp. reflexivity.
Qed.

(** The outcomes of the three callbacks that branch. *)
Lemma step_startGame_cases (w : World) :
  (exists image,
     provider (calls w) = Some image
     /\ step provider StartGame w
        = {| game := {| screen := Game; currentRound := 1;
                        currentImage := Some image;
                        guessLocation := None; guessFloor := None;
                        currentResult := None; roundResults := [];
                        isLoading := false; error := None |};
             calls := S (calls w) |})
  \/ (provider (calls w) = None
      /\ step provider StartGame w
         = {| game := {| screen := screen (game w); currentRound := 1;
                         currentImage := currentImage (game w);
                         guessLocation := guessLocation (game w);
                         guessFloor := guessFloor (game w);
                         currentResult := None; roundResults := [];
                         isLoading := false; error := Some loadFailure |};
              calls := S (calls w) |}).
Proof.
  destruct (provider (calls w)) as [image |] eqn:Hp.
  - left. exists image. split; [reflexivity |].
    apply step_startGame_resolved. exact Hp.
  - right. split; [reflexivity |].
    apply step_startGame_rejected. exact Hp.
Qed.

Lemma step_submitGuess_cases (w : World) :
  step provider SubmitGuess w = w
  \/ (exists result,
        step provider SubmitGuess w
        = {| game := {| screen := Result;
                        currentRound := currentRound (game w);
                        currentImage := currentImage (game w);
                        guessLocation := guessLocation (game w);
                        guessFloor := guessFloor (game w);
                        currentResult := Some result;
                        roundResults := roundResults (game w) ++ [result];
                        isLoading := isLoading (game w);
                        error := error (game w) |};
             calls := calls w |}).
Proof.
  destruct (guessLocation (game w)) as [guess |] eqn:Hg;
    [| left; apply step_submitGuess_incomplete; auto].
  destruct (truthyFloor (guessFloor (game w))) as [floor |] eqn:Hf;
    [| left; apply step_submitGuess_incomplete; auto].
  destruct (currentImage (game w)) as [image |] eqn:Hi;
    [| left; apply step_submitGuess_incomplete; auto].
  right. eexists.
  rewrite <- Hg, <- Hi.
  apply (step_submitGuess_complete w guess floor image Hg Hf Hi).
Qed.

Lemma step_nextRound_cases (w : World) :
  ((TOTAL_ROUNDS <= currentRound (game w))%nat
   /\ screen (game (step provider NextRound w)) = FinalResults
   /\ currentRound (game (step provider NextRound w)) = currentRound (game w)
   /\ currentResult (game (step provider NextRound w))
      = currentResult (game w)
   /\ roundResults (game (step provider NextRound w))
      = roundResults (game w)
   /\ calls (step provider NextRound w) = calls w)
  \/ ((currentRound (game w) < TOTAL_ROUNDS)%nat
      /\ screen (game (step provider NextRound w)) = Game
      /\ currentRound (game (step provider NextRound w))
         = (currentRound (game w) + 1)%nat
      /\ currentResult (game (step provider NextRound w)) = None
      /\ roundResults (game (step provider NextRound w))
         = roundResults (game w)
      /\ calls (step provider NextRound w) = S (calls w)).
Proof.
  destruct (Nat.le_gt_cases TOTAL_ROUNDS (currentRound (game w))) as [H | H].
  - left. rewrite (step_nextRound_last w H). repeat split; assumption.
  - right. destruct (provider (calls w)) as [image |] eqn:Hp.
    + rewrite (step_nextRound_resolved w image H Hp).
      repeat split; assumption.
    + rewrite (step_nextRound_rejected w H Hp). repeat split; assumption.
Qed.

(** *** Invariants of guarded runs *)

Lemma run_invariant (allow : GameState -> Op -> bool) (I : World -> Prop) :
  (forall w op, I w -> allow (game w) op = true -> I (step provider op w)) ->
  forall ops w w', I w -> run provider allow ops w = Some w' -> I w'.
Proof.
  intros Hstep ops. induction ops as [| op rest IH]; intros w w' Hw Hrun.
  - simpl in Hrun. injection Hrun as <-. exact Hw.
  - simpl in Hrun. destruct (allow (game w) op) eqn:Hallow.
    + apply (IH (step provider op w)).
      * apply Hstep; assumption.
      * exact Hrun.
    + discriminate Hrun.
Qed.

Lemma run_exec (allow : GameState -> Op -> bool) :
  forall ops w w', run provider allow ops w = Some w' ->
                   w' = exec provider ops w.
Proof.
  induction ops as [| op rest IH]; intros w w' Hrun; simpl in Hrun.
  - injection Hrun as <-. reflexivity.
  - destruct (allow (game w) op); [| discriminate Hrun].
    simpl. apply IH. exact Hrun.
Qed.

Lemma boundInv_initial : boundInv initialWorld.
Proof.
  unfold boundInv, TOTAL_ROUNDS. simpl. repeat split; lia.
Qed.

Lemma boundInv_step (w : World) (op : Op) :
  boundInv w -> submitOnGameScreen (game w) op = true ->
  boundInv (step provider op w).
Proof.
  unfold boundInv, TOTAL_ROUNDS. intros (Hr & Hl & Hg) Hallow.
  destruct op as [| coords | floor | | | |].
  - destruct (step_startGame_cases w) as [(image & _ & ->) | (_ & ->)];
      simpl; repeat split; lia.
  - rewrite step_placeMarker. simpl. auto.
  - rewrite step_selectFloor. simpl. auto.
  - unfold submitOnGameScreen in Hallow.
    destruct (screen (game w)) eqn:Hs; try discriminate Hallow.
    specialize (Hg eq_refl).
    destruct (step_submitGuess_cases w) as [-> | (result & ->)].
    + rewrite Hs. repeat split; auto.
    + simpl. rewrite length_app. simpl.
      repeat split; try lia; try (intro Hd; discriminate Hd).
  - destruct (step_nextRound_cases w)
      as [(Hge & Hs & Hc & _ & Hrr & _) | (Hlt & Hs & Hc & _ & Hrr & _)];
      rewrite Hs, Hc, Hrr; unfold TOTAL_ROUNDS in *.
    + repeat split; try lia; try (intro Hd; discriminate Hd).
    + repeat split; lia.
  - rewrite step_viewFinalResults. simpl.
    repeat split; try lia; try (intro Hd; discriminate Hd).
  - rewrite step_resetGame. simpl.
    repeat split; try lia; try (intro Hd; discriminate Hd).
Qed.

Lemma offeredInv_initial : offeredInv initialWorld.
Proof. unfold offeredInv. simpl. auto. Qed.

Lemma offeredInv_step (w : World) (op : Op) :
  offeredInv w -> offered (game w) op = true ->
  offeredInv (step provider op w).
Proof.
  unfold offeredInv, offered, TOTAL_ROUNDS. intros Hinv Hallow.
  destruct op as [| coords | floor | | | |].
  - destruct (step_startGame_cases w) as [(image & _ & ->) | (_ & ->)];
      cbn [game screen currentRound roundResults currentResult List.length].
    + repeat split; lia.
    + destruct (screen (game w)); try discriminate Hallow; auto.
  - rewrite step_placeMarker.
    destruct (screen (game w)) eqn:Hs; try discriminate Hallow.
    cbn [game screen currentRound roundResults currentResult].
    exact Hinv.
  - rewrite step_selectFloor.
    destruct (screen (game w)) eqn:Hs; try discriminate Hallow.
    cbn [game screen currentRound roundResults currentResult].
    exact Hinv.
  - destruct (screen (game w)) eqn:Hs; try discriminate Hallow.
    destruct Hinv as (Hr & Hle & Hc).
    destruct (step_submitGuess_cases w) as [-> | (result & ->)].
    + rewrite Hs. auto.
    + cbn [game screen currentRound roundResults currentResult].
      rewrite length_app. simpl. repeat split; try lia.
      intro Hd. discriminate Hd.
  - destruct (screen (game w)) eqn:Hs; try discriminate Hallow.
    destruct Hinv as (Hr & Hle & Hc).
    destruct (step_nextRound_cases w)
      as [(Hge & Hs' & Hc' & Hcr & Hrr & _) | (Hlt & Hs' & Hc' & Hcr & Hrr & _)];
      rewrite Hs', Hc', Hrr; unfold TOTAL_ROUNDS in *.
    + left. split; lia.
    + rewrite Hcr. repeat split; lia.
  - rewrite step_viewFinalResults.
    destruct (screen (game w)) eqn:Hs; try discriminate Hallow.
    cbn [game screen currentRound roundResults currentResult].
    destruct Hinv as (Hr & Hle & Hc). left. split; assumption.
  - rewrite step_resetGame.
    cbn [game screen currentRound roundResults currentResult]. auto.
Qed.

Lemma offeredInv_run (ops : list Op) (w : World) :
  run provider offered ops initialWorld = Some w -> offeredInv w.
Proof.
  apply (run_invariant offered offeredInv offeredInv_step).
  exact offeredInv_initial.
Qed.

End Callbacks.

(** *** The claims about the session *)

Import Scenario.

(** Claim C3, as stated, fails: [submitGuess] looks at the guess and the
    image, not at the screen, so calling it again from the result screen
    appends the same record again.  After one complete guess and five
    more submits the history holds six records. *)
Lemma history_bound_counterexample :
  ~ (forall provider ops w,
       run provider anyCall ops initialWorld = Some w ->
       (List.length (roundResults (game w)) <= TOTAL_ROUNDS)%nat).
Proof.
  intro H.
  specialize (H alwaysResolves sixSubmits
                (exec alwaysResolves sixSubmits initialWorld)).
  assert (Hrun : run alwaysResolves anyCall sixSubmits initialWorld
                 = Some (exec alwaysResolves sixSubmits initialWorld))
    by (vm_compute; reflexivity).
  specialize (H Hrun).
  assert (Hlen : List.length
                   (roundResults
                      (game (exec alwaysResolves sixSubmits initialWorld)))
                 = 6%nat) by (vm_compute; reflexivity).
  rewrite Hlen in H. unfold TOTAL_ROUNDS in H. lia.
Qed.

(** Claim C4 fails on the code: when the fetch of [nextRound] rejects,
    [loadNewImage] records the error and returns normally, and
    [nextRound] goes on to show the game screen.  After the first guess,
    with a provider whose second call rejects, the session is on the
    game screen in round 2, with the error set, no current record, and
    the history still holding the first record. *)
Theorem nextRound_rejected_fetch_shows_game :
  let before := exec (rejectsAfter 1) firstGuess initialWorld in
  let after := exec (rejectsAfter 1) guessThenAdvance initialWorld in
  screen (game before) = Result
  /\ after = step (rejectsAfter 1) NextRound before
  /\ screen (game after) = Game
  /\ error (game after) = Some loadFailure
  /\ currentRound (game after) = 2%nat
  /\ currentResult (game after) = None
  /\ roundResults (game after) = roundResults (game before)
  /\ List.length (roundResults (game after)) = 1%nat.
Proof.
  vm_compute. repeat split; reflexivity.
Qed.

(** Claim C5.  Once the guess of the fifth round has been submitted (the
    session, driven through the screens, shows the result screen and the
    history holds [TOTAL_ROUNDS] records), [nextRound] shows the
    final-results screen and makes no call to the provider; the history
    is left as it is. *)
Theorem nextRound_terminal_short_circuit
    (provider : nat -> option Image) (ops : list Op) (w : World) :
  run provider offered ops initialWorld = Some w ->
  screen (game w) = Result ->
  List.length (roundResults (game w)) = TOTAL_ROUNDS ->
  let w' := step provider NextRound w in
  screen (game w') = FinalResults
  /\ calls w' = calls w
  /\ roundResults (game w') = roundResults (game w).
Proof.
  intros Hrun Hs Hlen w'.
  pose proof (offeredInv_run provider ops w Hrun) as Hinv.
  unfold offeredInv in Hinv. rewrite Hs in Hinv.
  destruct Hinv as (Hr & _ & _).
  assert (Hge : (TOTAL_ROUNDS <= currentRound (game w))%nat) by lia.
  unfold w'. rewrite (step_nextRound_last provider w Hge).
  repeat split; reflexivity.
Qed.

(** Claim C5 on a match of five rounds: five fetches before, five
    after. *)
Lemma nextRound_terminal_short_circuit_witness :
  let w := exec alwaysResolves fiveRounds initialWorld in
  let w' := step alwaysResolves NextRound w in
  calls w = 5%nat
  /\ screen (game w') = FinalResults
  /\ calls w' = calls w
  /\ roundResults (game w') = roundResults (game w).
Proof.
  split.
  - vm_compute. reflexivity.
  - apply (nextRound_terminal_short_circuit alwaysResolves fiveRounds).
    + vm_compute. reflexivity.
    + vm_compute. reflexivity.
    + vm_compute. reflexivity.
Defined.

(** Claim C6, as stated, fails: on the result screen the record of the
    round has already been appended, so the round counter equals the
    length of the history, not the length plus one.  After the first
    guess the screen is Result, the counter is 1 and the history holds
    one record, four rounds short of a finished match. *)
Lemma round_counter_counterexample :
  ~ (forall provider ops w,
       run provider offered ops initialWorld = Some w ->
       roundCounterClaim (game w)).
Proof.
  intro H.
  specialize (H alwaysResolves firstGuess
                (exec alwaysResolves firstGuess initialWorld)).
  assert (Hrun : run alwaysResolves offered firstGuess initialWorld
                 = Some (exec alwaysResolves firstGuess initialWorld))
    by (vm_compute; reflexivity).
  destruct (H Hrun) as [Hopen _].
  assert (Hs : screen (game (exec alwaysResolves firstGuess initialWorld))
               = Result) by (vm_compute; reflexivity).
  assert (Hlen : List.length
                   (roundResults
                      (game (exec alwaysResolves firstGuess initialWorld)))
                 = 1%nat) by (vm_compute; reflexivity).
  assert (Hr : currentRound
                 (game (exec alwaysResolves firstGuess initialWorld))
               = 1%nat) by (vm_compute; reflexivity).
  unfold finished, TOTAL_ROUNDS in Hopen.
  rewrite Hlen, Hr in Hopen.
  assert (Habs : 1%nat = (1 + 1)%nat).
  { apply Hopen; [right; exact Hs | lia]. }
  discriminate Habs.
Qed.

(** Claim C7, as stated, fails: neither [viewFinalResults] nor the last
    [nextRound] clears the current record, so on the final-results
    screen the record of the last round is still present. *)
Lemma current_record_counterexample :
  ~ (forall provider ops w,
       run provider offered ops initialWorld = Some w ->
       currentRecordClaim (game w)).
Proof.
  intro H.
  specialize (H alwaysResolves fullMatch
                (exec alwaysResolves fullMatch initialWorld)).
  assert (Hrun : run alwaysResolves offered fullMatch initialWorld
                 = Some (exec alwaysResolves fullMatch initialWorld))
    by (vm_compute; reflexivity).
  destruct (H Hrun) as [Hpresent _].
  assert (Hs : screen (game (exec alwaysResolves fullMatch initialWorld))
               = FinalResults) by (vm_compute; reflexivity).
  rewrite Hs in Hpresent.
  assert (Habs : FinalResults = Result).
  { apply Hpresent. vm_compute. intro Hd. discriminate Hd. }
  discriminate Habs.
Qed.

(** Claim C8.  In every state whose guess lacks the floor or the
    location, [submitGuess] changes nothing: the whole state, with its
    history, its screen and its current record, is the state before. *)
Theorem submitGuess_incomplete_noop
    (provider : nat -> option Image) (w : World) :
  guessFloor (game w) = None \/ guessLocation (game w) = None ->
  step provider SubmitGuess w = w.
Proof.
  intro H. apply step_submitGuess_incomplete.
  destruct H as [Hf | Hg].
  - right. left. rewrite Hf. reflexivity.
  - left. exact Hg.
Qed.

(** Claim C8 on the game screen with a marker and no floor. *)
Lemma submitGuess_incomplete_noop_witness :
  let w := exec alwaysResolves markerOnly initialWorld in
  screen (game w) = Game
  /\ guessFloor (game w) = None
  /\ step alwaysResolves SubmitGuess w = w.
Proof.
  split; [vm_compute; reflexivity |].
  split; [vm_compute; reflexivity |].
  apply (submitGuess_incomplete_noop alwaysResolves).
  left. vm_compute. reflexivity.
Defined.

(** Claim C10.  [startGame] empties the history and sets the round
    counter to 1 before the fetch is made; so when it is called from the
    final-results screen and the fetch rejects, the session is still on
    the final-results screen, with the error set, the history empty and
    the counter at 1. *)
Theorem playAgain_rejected_loses_history
    (provider : nat -> option Image) (w : World) :
  screen (game w) = FinalResults ->
  provider (calls w) = None ->
  let awaiting := snd (startGame_begin w) in
  let w' := step provider StartGame w in
  (roundResults (game awaiting) = []
   /\ currentRound (game awaiting) = 1%nat
   /\ calls awaiting = calls w)
  /\ w' = snd (startGame_resume None (snd (getRandomImage provider awaiting)))
  /\ screen (game w') = FinalResults
  /\ error (game w') = Some loadFailure
  /\ roundResults (game w') = []
  /\ currentRound (game w') = 1%nat
  /\ isLoading (game w') = false.
Proof.
  intros Hs Hp awaiting w'. split.
  - unfold awaiting. rewrite startGame_begin_eq. repeat split; reflexivity.
  - unfold w'. rewrite (step_startGame_rejected provider w Hp).
    cbn [game screen error roundResults currentRound isLoading].
    repeat split; try reflexivity. exact Hs.
Qed.

(** Claim C10 after a whole match, with a provider whose sixth call
    rejects: the five records of the match are gone. *)
Lemma playAgain_rejected_loses_history_witness :
  let w := exec (rejectsAfter 5) fullMatch initialWorld in
  let w' := step (rejectsAfter 5) StartGame w in
  List.length (roundResults (game w)) = 5%nat
  /\ screen (game w') = FinalResults
  /\ error (game w') = Some loadFailure
  /\ roundResults (game w') = [].
Proof.
  split; [vm_compute; reflexivity |].
  destruct (playAgain_rejected_loses_history (rejectsAfter 5)
              (exec (rejectsAfter 5) fullMatch initialWorld))
    as (_ & _ & Hs & He & Hr & _).
  - vm_compute. reflexivity.
  - vm_compute. reflexivity.
  - split; [exact Hs |]. split; [exact He | exact Hr].
Defined.

End SessionFacts.

(* ================================================================= *)
(** ** The scenarios of the specification, replayed on the model *)

Module SpecScenarios.
Import Scoring Session Scenario.

Lemma calculateDistance_self (p : Point) : calculateDistance p p = 0%R.
Proof.
  unfold calculateDistance. cbv zeta.
  replace ((px p - px p) * (px p - px p) + (py p - py p) * (py p - py p))%R
    with 0%R by lra.
  apply sqrt_0.
Qed.

(** Scenarios A and C: a guess on the target scores 5000 with the right
    floor and 4000 with a wrong one. *)
Lemma guess_on_target (round : nat) (floor : Z) :
  let r := buildResult round sample5 centre floor in
  distance r = 0%R
  /\ locationScore r = 5000
  /\ floorCorrect r = (floor =? 2)
  /\ score r = if floor =? 2 then 5000 else 4000.
Proof.
  intro r.
  assert (Hd : distance r = 0%R) by apply calculateDistance_self.
  assert (Hl : locationScore r = 5000).
  { change (locationScore r) with (calculateLocationScore (distance r)).
    rewrite Hd. apply ScoringFacts.locationScore_at_zero. }
  repeat split; try assumption.
  change (score r) with (roundScore (locationScore r) (floor =? 2)).
  rewrite Hl. destruct (floor =? 2).
  - reflexivity.
  - unfold roundScore. rewrite ScoringFacts.Math_round_four_fifths.
    reflexivity.
Qed.

(** Scenario D: five rounds of 5000 points total 25000 of 25000 and rate
    Perfect. *)
Lemma five_perfect_rounds :
  let rounds := roundResults (game (exec alwaysResolves fullMatch initialWorld)) in
  totalScore rounds = 25000
  /\ maxPossible rounds = 25000
  /\ performance rounds = Rating.Perfect.
Proof.
  intro rounds.
  assert (Hrounds :
    rounds = List.map (fun n => buildResult n sample5 centre 2)
                      [1; 2; 3; 4; 5]%nat) by reflexivity.
  assert (Htotal : totalScore rounds = 25000).
  { rewrite Hrounds. unfold totalScore. cbn [List.map fold_left].
    repeat match goal with
    | |- context [score (buildResult ?n sample5 centre 2)] =>
        let H := fresh in
        destruct (guess_on_target n 2) as (_ & _ & _ & H);
        cbv zeta in H; rewrite H; clear H
    end.
    reflexivity. }
  assert (Hmax : maxPossible rounds = 25000) by (rewrite Hrounds; reflexivity).
  repeat split; try assumption.
  unfold performance. rewrite Htotal, Hmax. reflexivity.
Qed.

(** The empty history rates Beginner: 0 of 0 is [NaN]. *)
Lemma empty_history_rating : performance [] = Rating.Beginner.
Proof. reflexivity. Qed.

(** Scenario E: a rejected fetch in [startGame] leaves the title screen
    with the error set and the loading flag cleared. *)
Lemma startGame_rejected_stays_on_title :
  let w := step (rejectsAfter 0) StartGame initialWorld in
  screen (game w) = Title
  /\ error (game w) = Some loadFailure
  /\ isLoading (game w) = false.
Proof. repeat split; reflexivity. Qed.

End SpecScenarios.

(* ================================================================= *)
(** ** Further facts: geometry *)

Module GeometryFacts.
Import Scoring.

Local Open Scope R_scope.

Lemma sum_squares_nonneg (x y : R) : 0 <= x * x + y * y.
Proof. nra. Qed.

(** Property X1.  [calculateDistance] does not depend on which point is the guess. *)
Theorem calculateDistance_sym (a b : Point) :
  calculateDistance a b = calculateDistance b a.
Proof.
  unfold calculateDistance. cbv zeta. f_equal. ring.
Qed.

Lemma sqrt_le_of_square (s m : R) : 0 <= m -> s <= m * m -> sqrt s <= m.
Proof.
  intros Hm Hs.
  destruct (Rle_dec 0 s) as [H0 | Hneg].
  - rewrite <- (sqrt_square m Hm). apply sqrt_le_1_alt. exact Hs.
  - rewrite sqrt_neg_0 by lra. exact Hm.
Qed.

(** Property X4.  Two points of the map are never further apart than its diagonal. *)
Theorem calculateDistance_on_map (a b : Point) :
  MapPicker.onMap a -> MapPicker.onMap b ->
  calculateDistance a b <= 100 * sqrt 2.
Proof.
  intros [Hax Hay] [Hbx Hby]. unfold calculateDistance. cbv zeta.
  pose proof (sqrt_pos 2) as H2.
  apply sqrt_le_of_square; [lra |].
  replace (100 * sqrt 2 * (100 * sqrt 2))
    with (10000 * (sqrt 2 * sqrt 2)) by ring.
  rewrite sqrt_sqrt by lra. nra.
Qed.

(** The bound on the map's two opposite corners. *)
Lemma calculateDistance_on_map_witness :
  calculateDistance {| px := 0; py := 0 |} {| px := 100; py := 100 |}
  <= 100 * sqrt 2.
Proof.
  apply calculateDistance_on_map; unfold MapPicker.onMap; simpl; lra.
Defined.

End GeometryFacts.

(* ================================================================= *)
(** ** Further facts: the scoring law *)

Module ScoreFacts.
Import Scoring Session.

Lemma Math_round_below (x : R) (n : Z) :
  (x + / 2 < IZR n)%R -> Math_round x < n.
Proof.
  intro H. unfold Math_round.
  destruct (Zfloor_bound (x + / 2)%R) as [Hlo _].
  apply lt_IZR. lra.
Qed.

Lemma Math_round_at_least (x : R) (n : Z) :
  (IZR n <= x + / 2)%R -> n <= Math_round x.
Proof.
  intro H. unfold Math_round. apply Zfloor_lub. exact H.
Qed.

Lemma decay_antitone (d1 d2 : R) :
  (d1 <= d2)%R ->
  (5000 * exp (- (5 / 100) * d2) <= 5000 * exp (- (5 / 100) * d1))%R.
Proof.
  intro H.
  assert (exp (- (5 / 100) * d2) <= exp (- (5 / 100) * d1))%R.
  { destruct (Req_dec d1 d2) as [-> | Hne].
    - lra.
    - left. apply exp_increasing. lra. }
  lra.
Qed.

(** [exp (-y) <= 1 / (1 + y)] for [y >= 0]. *)
Lemma exp_neg_upper (y : R) : (0 <= y)%R -> (exp (- y) <= / (1 + y))%R.
Proof.
  intro Hy. rewrite exp_Ropp.
  pose proof (exp_ineq1_le y) as H.
  apply Rinv_le_contravar; lra.
Qed.

Lemma exp_8_upper : (exp 8 <= 6561)%R.
Proof.
  pose proof exp_le_3 as H3. pose proof (exp_pos 1) as Hp.
  replace 8%R with (1 + 1 + (1 + 1) + (1 + 1 + (1 + 1)))%R by lra.
  rewrite !exp_plus.
  set (e := exp 1) in *.
  assert (He2 : (e * e <= 9)%R) by nra.
  assert (He2p : (0 < e * e)%R) by nra.
  assert (He4 : (e * e * (e * e) <= 81)%R) by nra.
  assert (He4p : (0 < e * e * (e * e))%R) by nra.
  nra.
Qed.

(** Property X5.  A farther guess never scores more. *)
Theorem calculateLocationScore_antitone (d1 d2 : R) :
  (d1 <= d2)%R -> calculateLocationScore d2 <= calculateLocationScore d1.
Proof.
  intro H. unfold calculateLocationScore, maxScore, decayRate.
  pose proof (ScoringFacts.Math_round_le _ _ (decay_antitone d1 d2 H)).
  lia.
Qed.

Lemma calculateLocationScore_antitone_witness :
  calculateLocationScore 20 <= calculateLocationScore 10.
Proof.
  apply calculateLocationScore_antitone. lra.
Defined.

(** Property X6.  A distance of zero or less scores exactly 5000: for a negative
    distance the rounded value is above 5000 and the clamp cuts it. *)
Theorem calculateLocationScore_nonpositive (d : R) :
  (d <= 0)%R ->
  calculateLocationScore d = 5000
  /\ 5000 <= Math_round (5000 * exp (- (5 / 100) * d))%R.
Proof.
  intro Hd.
  assert (Hr : 5000 <= Math_round (5000 * exp (- (5 / 100) * d))%R).
  { apply Math_round_at_least.
    pose proof (decay_antitone d 0 Hd) as H.
    replace (- (5 / 100) * 0)%R with 0%R in H by lra.
    rewrite exp_0 in H. lra. }
  split; [| exact Hr].
  unfold calculateLocationScore, maxScore, decayRate. lia.
Qed.

Lemma calculateLocationScore_nonpositive_witness :
  calculateLocationScore (-10) = 5000.
Proof.
  apply calculateLocationScore_nonpositive. lra.
Defined.

(** Property X7.  The full 5000 points are given within a four-hundredth of a unit of
    the target only. *)
Theorem calculateLocationScore_perfect_is_close (d : R) :
  calculateLocationScore d = 5000 -> (d < / 400)%R.
Proof.
  intro H. apply Rnot_le_lt. intro Hd.
  assert (Hlt : calculateLocationScore d < 5000).
  { unfold calculateLocationScore, maxScore, decayRate.
    assert (Math_round (5000 * exp (- (5 / 100) * d))%R < 5000); [| lia].
    apply Math_round_below.
    pose proof (decay_antitone (/ 400) d Hd) as Hmono.
    pose proof (exp_neg_upper (5 / 100 * / 400) ltac:(lra)) as Hup.
    replace (- (5 / 100) * / 400)%R with (- (5 / 100 * / 400))%R
      in Hmono by lra.
    assert (Hinv : (/ (1 + 5 / 100 * / 400) = 8000 / 8001)%R)
      by (field; lra).
    rewrite Hinv in Hup. lra. }
  lia.
Qed.

Lemma calculateLocationScore_perfect_is_close_witness :
  calculateLocationScore 0 = 5000 /\ (0 < / 400)%R.
Proof.
  split; [exact ScoringFacts.locationScore_at_zero |].
  apply (calculateLocationScore_perfect_is_close 0).
  exact ScoringFacts.locationScore_at_zero.
Defined.

Lemma locationScore_within_160 (d : R) :
  (d <= 160)%R -> 1 <= calculateLocationScore d.
Proof.
  intro Hd. unfold calculateLocationScore, maxScore, decayRate.
  assert (1 <= Math_round (5000 * exp (- (5 / 100) * d))%R); [| lia].
  apply Math_round_at_least.
  pose proof (decay_antitone d 160 Hd) as Hmono.
  replace (- (5 / 100) * 160)%R with (Ropp 8) in Hmono by lra.
  rewrite exp_Ropp in Hmono.
  pose proof exp_8_upper as H8. pose proof (exp_pos 8) as Hp.
  assert (Hinv : (/ 6561 <= / exp 8)%R)
    by (apply Rinv_le_contravar; lra).
  lra.
Qed.

(** Property X8.  On the map every guess earns at least one point, whatever the
    floor. *)
Theorem score_on_map_positive (guess target : Point) (floorCorrect : bool) :
  MapPicker.onMap guess -> MapPicker.onMap target ->
  1 <= calculateLocationScore (calculateDistance guess target)
  /\ 1 <= roundScore (calculateLocationScore
                        (calculateDistance guess target)) floorCorrect.
Proof.
  intros Hg Ht.
  assert (Hd : (calculateDistance guess target <= 160)%R).
  { destruct Hg as [Hgx Hgy], Ht as [Htx Hty].
    unfold calculateDistance. cbv zeta.
    apply GeometryFacts.sqrt_le_of_square; [lra | nra]. }
  pose proof (locationScore_within_160 _ Hd) as H1.
  split; [exact H1 |].
  destruct floorCorrect; [exact H1 |].
  unfold roundScore. rewrite ScoringFacts.Math_round_four_fifths.
  apply Z.div_le_lower_bound; lia.
Qed.

Lemma score_on_map_positive_witness :
  1 <= calculateLocationScore
         (calculateDistance {| px := 0; py := 0 |}
                            {| px := 100; py := 100 |}).
Proof.
  apply (score_on_map_positive _ _ true);
    unfold MapPicker.onMap; simpl; lra.
Defined.

(** Rounding a fifth of an integer. *)
Lemma Math_round_one_fifth (s : Z) :
  Math_round (IZR s * (2 / 10))%R = (2 * s + 5) / 10.
Proof.
  unfold Math_round. apply Zfloor_eq.
  pose proof (Z.div_mod (2 * s + 5) 10 ltac:(lia)) as Hdm.
  pose proof (Z.mod_pos_bound (2 * s + 5) 10 ltac:(lia)) as Hb.
  set (q := (2 * s + 5) / 10) in *.
  set (r := (2 * s + 5) mod 10) in *.
  assert (Hs : (IZR (2 * s + 5) = 10 * IZR q + IZR r)%R).
  { rewrite Hdm, plus_IZR, mult_IZR. reflexivity. }
  rewrite plus_IZR, mult_IZR in Hs.
  assert (0 <= IZR r < 10)%R as [Hr0 Hr1].
  { split; [apply IZR_le | apply IZR_lt]; lia. }
  lra.
Qed.

Lemma buildResult_bounds (round : nat) (image : Image)
    (guess : Point) (floor : Z) :
  let r := buildResult round image guess floor in
  Further.wellScored r
  /\ (floorCorrect r = false -> score r <= 4000).
Proof.
  intro r. unfold Further.wellScored.
  pose proof (ScoringFacts.calculateLocationScore_range (distance r)) as Hl.
  change (calculateLocationScore (distance r)) with (locationScore r) in Hl.
  change (score r) with (roundScore (locationScore r) (floorCorrect r)).
  destruct (floorCorrect r); unfold roundScore.
  - repeat split; try lia; try discriminate.
  - rewrite ScoringFacts.Math_round_four_fifths.
    assert (0 <= (8 * locationScore r + 5) / 10)
      by (apply Z.div_pos; lia).
    assert ((8 * locationScore r + 5) / 10 <= locationScore r).
    { apply Z.lt_succ_r. apply Z.div_lt_upper_bound; lia. }
    assert ((8 * locationScore r + 5) / 10 <= 4000).
    { apply Z.lt_succ_r. apply Z.div_lt_upper_bound; lia. }
    repeat split; lia.
Qed.

(** Property X9.  The record [submitGuess] builds: its score is not negative, not
    above its location score, which is at most 5000; with a wrong floor
    the score is at most 4000. *)
Theorem buildResult_scores (round : nat) (image : Image)
    (guess : Point) (floor : Z) :
  let r := buildResult round image guess floor in
  (0 <= score r /\ score r <= locationScore r /\ locationScore r <= 5000)
  /\ (floorCorrect r = false -> score r <= 4000).
Proof.
  exact (buildResult_bounds round image guess floor).
Qed.

End ScoreFacts.

(* ================================================================= *)
(** ** Further facts: the result screen *)

Module ResultScreenFacts.
Import Scoring Session ResultScreen.

(** Property X10.  The label is ["Perfect!"] exactly below two and a quarter units;
    from there on it is the number of units, twice the distance rounded,
    which is at least 5. *)
Theorem formatDistance_perfect_iff (d : R) :
  (formatDistance d = PerfectLabel <-> (d < 9 / 4)%R)
  /\ (~ (d < 9 / 4)%R ->
      formatDistance d = FeetAway (Math_round (d * 2)%R)
      /\ 5 <= Math_round (d * 2)%R).
Proof.
  unfold formatDistance. cbv zeta.
  destruct (Z.ltb_spec (Math_round (d * 2)%R) 5) as [Hlt | Hge].
  - assert (Hd : (d < 9 / 4)%R).
    { unfold Math_round in Hlt.
      destruct (Zfloor_bound (d * 2 + / 2)%R) as [_ Hhi].
      assert (IZR (Zfloor (d * 2 + / 2)) + 1 <= 5)%R.
      { rewrite <- plus_IZR. apply IZR_le. lia. }
      lra. }
    split.
    + split; [intros _; exact Hd | reflexivity].
    + intro Hn. contradiction.
  - assert (Hd : ~ (d < 9 / 4)%R).
    { intro Hd.
      assert (Math_round (d * 2)%R < 5)
        by (apply ScoreFacts.Math_round_below; lra).
      lia. }
    split.
    + split; intro H.
      * destruct (Math_round (d * 2)%R <? 20); discriminate H.
      * contradiction.
    + intros _. split; [| exact Hge].
      destruct (Math_round (d * 2)%R <? 20); reflexivity.
Qed.

(** Property X11.  The total and the penalty the screen shows always add up to the
    location score it shows. *)
Theorem breakdown_adds_up (guessLocation : Point) (guessFloor : Z)
    (actualLocation : Point) (actualFloor : Z) :
  let b := breakdown guessLocation guessFloor actualLocation actualFloor in
  shownTotal b + shownPenalty b = shownLocationScore b
  /\ (0 < shownPenalty b <->
      shownFloorCorrect b = false /\ 3 <= shownLocationScore b).
Proof.
  intro b. unfold b, breakdown. cbv zeta.
  cbn [shownTotal shownPenalty shownLocationScore shownFloorCorrect].
  set (s := calculateScore (calculateDistance guessLocation actualLocation)).
  destruct (guessFloor =? actualFloor).
  - split; [lia |]. split; [lia | intros [Hd _]; discriminate Hd].
  - rewrite ScoringFacts.Math_round_four_fifths,
            ScoreFacts.Math_round_one_fifth.
    pose proof (Z.div_mod (8 * s + 5) 10 ltac:(lia)).
    pose proof (Z.mod_pos_bound (8 * s + 5) 10 ltac:(lia)).
    pose proof (Z.div_mod (2 * s + 5) 10 ltac:(lia)).
    pose proof (Z.mod_pos_bound (2 * s + 5) 10 ltac:(lia)).
    split; [lia |]. split; [intro; split; [reflexivity | lia] | lia].
Qed.

End ResultScreenFacts.

(* ================================================================= *)
(** ** Further facts: the history, under any sequence of calls *)

Module HistoryFacts.
Import Scoring Session Further.

Section AnyProvider.

Variable provider : nat -> option Image.

Lemma exec_invariant (I : World -> Prop) :
  (forall w op, I w -> I (step provider op w)) ->
  forall ops w, I w -> I (exec provider ops w).
Proof.
  intros Hstep ops. induction ops as [| op rest IH]; intros w Hw.
  - exact Hw.
  - simpl. apply IH. apply Hstep. exact Hw.
Qed.

Lemma exec_app (ops1 ops2 : list Op) (w : World) :
  exec provider (ops1 ++ ops2) w
  = exec provider ops2 (exec provider ops1 w).
Proof.
  revert w. induction ops1 as [| op rest IH]; intro w.
  - reflexivity.
  - simpl. apply IH.
Qed.

(** [submitGuess] either changes nothing or appends the record built
    from the guess, the image and the round of the state. *)
Lemma step_submitGuess_built (w : World) :
  step provider SubmitGuess w = w
  \/ (exists guess floor image,
        guessLocation (game w) = Some guess
        /\ truthyFloor (guessFloor (game w)) = Some floor
        /\ currentImage (game w) = Some image
        /\ step provider SubmitGuess w
           = {| game :=
                  {| screen := Result;
                     currentRound := currentRound (game w);
                     currentImage := currentImage (game w);
                     guessLocation := guessLocation (game w);
                     guessFloor := guessFloor (game w);
                     currentResult :=
                       Some (buildResult (currentRound (game w))
                                         image guess floor);
                     roundResults :=
                       roundResults (game w)
                       ++ [buildResult (currentRound (game w))
                                       image guess floor];
                     isLoading := isLoading (game w);
                     error := error (game w) |};
                calls := calls w |}).
Proof.
  destruct (guessLocation (game w)) as [guess |] eqn:Hg;
    [| left; apply SessionFacts.step_submitGuess_incomplete; auto].
  destruct (truthyFloor (guessFloor (game w))) as [floor |] eqn:Hf;
    [| left; apply SessionFacts.step_submitGuess_incomplete; auto].
  destruct (currentImage (game w)) as [image |] eqn:Hi;
    [| left; apply SessionFacts.step_submitGuess_incomplete; auto].
  right. exists guess, floor, image.
  repeat split; try reflexivity.
  rewrite <- Hg, <- Hi.
  apply (SessionFacts.step_submitGuess_complete provider w guess floor image
           Hg Hf Hi).
Qed.

Lemma settled_initial : settled initialWorld.
Proof.
  unfold settled, allBuilt, currentIsLast. simpl.
  repeat split; try constructor; intros r Hr; discriminate Hr.
Qed.

Lemma settled_step (w : World) (op : Op) :
  settled w -> settled (step provider op w).
Proof.
  unfold settled, allBuilt, currentIsLast.
  intros ((Hall & Hcur) & Hlast & Hload).
  destruct op as [| coords | floor | | | |].
  - destruct (SessionFacts.step_startGame_cases provider w)
      as [(image & _ & ->) | (_ & ->)];
      cbn [game roundResults currentResult isLoading];
      repeat split; try constructor; intros r Hr; discriminate Hr.
  - rewrite SessionFacts.step_placeMarker.
    cbn [game roundResults currentResult isLoading]. auto.
  - rewrite SessionFacts.step_selectFloor.
    cbn [game roundResults currentResult isLoading]. auto.
  - destruct (step_submitGuess_built w)
      as [-> | (guess & floor & image & _ & _ & _ & ->)].
    + auto.
    + cbn [game roundResults currentResult isLoading].
      assert (Hb : built (buildResult (currentRound (game w))
                                      image guess floor))
        by (exists (currentRound (game w)), image, guess, floor;
            reflexivity).
      repeat split.
      * apply Forall_app. split; [exact Hall | constructor; [exact Hb |]].
        constructor.
      * intros r Hr. injection Hr as <-. exact Hb.
      * intros r Hr. injection Hr as <-.
        exists (roundResults (game w)). reflexivity.
      * exact Hload.
  - destruct (Nat.le_gt_cases TOTAL_ROUNDS (currentRound (game w)))
      as [Hge | Hlt].
    + rewrite (SessionFacts.step_nextRound_last provider w Hge).
      cbn [game roundResults currentResult isLoading]. auto.
    + destruct (provider (calls w)) as [image |] eqn:Hp.
      * rewrite (SessionFacts.step_nextRound_resolved provider w image
                   Hlt Hp).
        cbn [game roundResults currentResult isLoading].
        repeat split; try assumption; intros r Hr; discriminate Hr.
      * rewrite (SessionFacts.step_nextRound_rejected provider w Hlt Hp).
        cbn [game roundResults currentResult isLoading].
        repeat split; try assumption; intros r Hr; discriminate Hr.
  - rewrite SessionFacts.step_viewFinalResults.
    cbn [game roundResults currentResult isLoading]. auto.
  - rewrite SessionFacts.step_resetGame.
    cbn [game roundResults currentResult isLoading].
    repeat split; try constructor; try assumption;
      intros r Hr; discriminate Hr.
Qed.

Lemma settled_exec (ops : list Op) : settled (exec provider ops initialWorld).
Proof.
  apply (exec_invariant settled settled_step). exact settled_initial.
Qed.

Lemma totalScore_bounds (rounds : list RoundResult) (acc : Z) :
  Forall wellScored rounds ->
  acc <= fold_left (fun sum round => sum + score round) rounds acc
  /\ fold_left (fun sum round => sum + score round) rounds acc
     <= acc + Z.of_nat (List.length rounds) * 5000.
Proof.
  intro Hall. revert acc.
  induction Hall as [| r rest Hr _ IH]; intro acc.
  - simpl. lia.
  - cbn [fold_left List.length]. destruct Hr as (H0 & H1 & H2).
    destruct (IH (acc + score r)) as [Hlo Hhi]. lia.
Qed.

Lemma built_wellScored (r : RoundResult) : built r -> wellScored r.
Proof.
  intros (round & image & guess & floor & ->).
  apply ScoreFacts.buildResult_bounds.
Qed.

(** Property X13.  Whatever is called, in whatever order: the total of the history the
    final-results screen adds up lies between 0 and the maximum it
    displays, 5000 a record. *)
Theorem history_total_within_max (ops : list Op) :
  let rounds := roundResults (game (exec provider ops initialWorld)) in
  0 <= totalScore rounds <= maxPossible rounds.
Proof.
  intro rounds.
  destruct (settled_exec ops) as ((Hall & _) & _ & _).
  fold rounds in Hall.
  assert (Hws : Forall wellScored rounds).
  { eapply Forall_impl; [| exact Hall]. exact built_wellScored. }
  unfold totalScore, maxPossible.
  pose proof (totalScore_bounds rounds 0 Hws). lia.
Qed.

(** Property X12.  Whatever is called: the values the result screen recomputes from
    the current record are the ones [submitGuess] stored in it. *)
Theorem result_screen_shows_stored (ops : list Op) (r : RoundResult) :
  currentResult (game (exec provider ops initialWorld)) = Some r ->
  let b := ResultScreen.ofResult r in
  ResultScreen.shownDistance b = distance r
  /\ ResultScreen.shownLocationScore b = locationScore r
  /\ ResultScreen.shownFloorCorrect b = floorCorrect r
  /\ ResultScreen.shownTotal b = score r.
Proof.
  intros Hr b.
  destruct (settled_exec ops) as ((_ & Hcur) & _ & _).
  destruct (Hcur r Hr) as (round & image & guess & floor & ->).
  repeat split; reflexivity.
Qed.

(** Property X14.  Whatever is called: a current record is the last record of the
    history. *)
Theorem current_record_ends_history (ops : list Op) (r : RoundResult) :
  currentResult (game (exec provider ops initialWorld)) = Some r ->
  exists earlier,
    roundResults (game (exec provider ops initialWorld)) = earlier ++ [r].
Proof.
  intro Hr.
  destruct (settled_exec ops) as (_ & Hlast & _).
  exact (Hlast r Hr).
Qed.

(** Property X15.  After any sequence of completed calls nothing is loading, and
    [resetGame] gives back exactly the initial state. *)
Theorem resetGame_restores_initial (ops : list Op) :
  isLoading (game (exec provider ops initialWorld)) = false
  /\ game (step provider ResetGame (exec provider ops initialWorld))
     = initialState.
Proof.
  destruct (settled_exec ops) as (_ & _ & Hload).
  split; [exact Hload |].
  rewrite SessionFacts.step_resetGame. cbn [game]. rewrite Hload.
  reflexivity.
Qed.

Lemma step_keeps_history (w : World) (op : Op) :
  clearsHistory op = false ->
  exists later,
    roundResults (game (step provider op w))
    = roundResults (game w) ++ later
    /\ (List.length later <= 1)%nat.
Proof.
  intro Hop. destruct op as [| coords | floor | | | |];
    try discriminate Hop.
  - exists []. rewrite app_nil_r. split; [reflexivity | simpl; lia].
  - exists []. rewrite app_nil_r. split; [reflexivity | simpl; lia].
  - destruct (SessionFacts.step_submitGuess_cases provider w)
      as [-> | (result & ->)].
    + exists []. rewrite app_nil_r. split; [reflexivity | simpl; lia].
    + exists [result]. split; [reflexivity | simpl; lia].
  - exists []. rewrite app_nil_r. split; [| simpl; lia].
    destruct (SessionFacts.step_nextRound_cases provider w)
      as [(_ & _ & _ & _ & Hrr & _) | (_ & _ & _ & _ & Hrr & _)];
      exact Hrr.
  - exists []. rewrite app_nil_r. split; [reflexivity | simpl; lia].
Qed.

(** Property X16.  Between two calls of [startGame] or [resetGame] the history only
    grows at its end: no record is removed or changed, and each call
    adds at most one. *)
Theorem history_grows_by_append (ops : list Op) (w : World) :
  forallb (fun op => negb (clearsHistory op)) ops = true ->
  exists later,
    roundResults (game (exec provider ops w))
    = roundResults (game w) ++ later
    /\ (List.length later <= List.length ops)%nat.
Proof.
  revert w. induction ops as [| op rest IH]; intros w Hops.
  - exists []. rewrite app_nil_r. split; [reflexivity | simpl; lia].
  - simpl in Hops. apply andb_prop in Hops as [Hop Hrest].
    apply negb_true_iff in Hop.
    destruct (step_keeps_history w op Hop) as (l1 & H1 & Hl1).
    destruct (IH (step provider op w) Hrest) as (l2 & H2 & Hl2).
    exists (l1 ++ l2). simpl exec. rewrite H2, H1, app_assoc.
    split; [reflexivity |]. rewrite length_app. simpl. lia.
Qed.

Lemma step_calls (w : World) (op : Op) :
  (calls w <= calls (step provider op w)
   <= calls w + (if mayFetch op then 1 else 0))%nat.
Proof.
  destruct op as [| coords | floor | | | |]; cbn [mayFetch].
  - destruct (SessionFacts.step_startGame_cases provider w)
      as [(image & _ & ->) | (_ & ->)]; simpl; lia.
  - rewrite SessionFacts.step_placeMarker. simpl. lia.
  - rewrite SessionFacts.step_selectFloor. simpl. lia.
  - destruct (SessionFacts.step_submitGuess_cases provider w)
      as [-> | (result & ->)]; simpl; lia.
  - destruct (SessionFacts.step_nextRound_cases provider w)
      as [(_ & _ & _ & _ & _ & ->) | (_ & _ & _ & _ & _ & ->)]; lia.
  - rewrite SessionFacts.step_viewFinalResults. simpl. lia.
  - rewrite SessionFacts.step_resetGame. simpl. lia.
Qed.

(** Property X17.  The provider is called by [startGame] and [nextRound] only, at most
    once a call: a sequence makes no more fetches than it has such
    calls, and the counter never goes back. *)
Theorem fetches_counted (ops : list Op) (w : World) :
  (calls w <= calls (exec provider ops w)
   <= calls w + List.length (filter mayFetch ops))%nat.
Proof.
  revert w. induction ops as [| op rest IH]; intro w.
  - simpl. lia.
  - cbn [exec filter].
    pose proof (step_calls w op) as Hs.
    pose proof (IH (step provider op w)) as Hr.
    destruct (mayFetch op); simpl List.length; lia.
Qed.

(** *** Runs through the screens *)

Lemma numbered_step (w : World) (op : Op) :
  offeredInv w /\ numbered (game w) ->
  offered (game w) op = true ->
  offeredInv (step provider op w) /\ numbered (game (step provider op w)).
Proof.
  intros [Hinv Hnum] Hallow.
  split; [apply SessionFacts.offeredInv_step; assumption |].
  unfold numbered in *.
  destruct op as [| coords | floor | | | |].
  - destruct (SessionFacts.step_startGame_cases provider w)
      as [(image & _ & ->) | (_ & ->)]; reflexivity.
  - exact Hnum.
  - exact Hnum.
  - unfold offered in Hallow. unfold offeredInv in Hinv.
    destruct (screen (game w)) eqn:Hs; try discriminate Hallow.
    destruct Hinv as (Hr & _ & _).
    destruct (step_submitGuess_built w)
      as [-> | (guess & floor & image & _ & _ & _ & ->)];
      [exact Hnum |].
    cbn [game roundResults].
    rewrite map_app, length_app, Hnum. cbn [List.map List.length roundNumber buildResult].
    rewrite Nat.add_1_r, seq_S, Hr, Nat.add_1_r. reflexivity.
  - destruct (SessionFacts.step_nextRound_cases provider w)
      as [(_ & _ & _ & _ & Hrr & _) | (_ & _ & _ & _ & Hrr & _)];
      rewrite Hrr; exact Hnum.
  - exact Hnum.
  - reflexivity.
Qed.

Lemma numbered_run (ops : list Op) (w : World) :
  run provider offered ops initialWorld = Some w ->
  List.map roundNumber (roundResults (game w))
  = seq 1 (List.length (roundResults (game w))).
Proof.
  intro Hrun.
  apply (SessionFacts.run_invariant provider offered
           (fun w => offeredInv w /\ numbered (game w))
           numbered_step ops initialWorld w);
    [| exact Hrun].
  split; [exact SessionFacts.offeredInv_initial | reflexivity].
Qed.

End AnyProvider.

Import Scenario.

Lemma result_screen_shows_stored_witness :
  ResultScreen.shownTotal
    (ResultScreen.ofResult (buildResult 1 sample5 centre 2))
  = score (buildResult 1 sample5 centre 2).
Proof.
  apply (result_screen_shows_stored alwaysResolves firstGuess).
  reflexivity.
Defined.

Lemma current_record_ends_history_witness :
  exists earlier,
    roundResults (game (exec alwaysResolves firstGuess initialWorld))
    = earlier ++ [buildResult 1 sample5 centre 2].
Proof.
  apply (current_record_ends_history alwaysResolves firstGuess).
  reflexivity.
Defined.

Lemma history_grows_by_append_witness :
  exists later,
    roundResults
      (game (exec alwaysResolves (NextRound :: playRound)
                  (exec alwaysResolves firstGuess initialWorld)))
    = roundResults (game (exec alwaysResolves firstGuess initialWorld))
      ++ later
    /\ (List.length later <= 4)%nat.
Proof.
  apply (history_grows_by_append alwaysResolves (NextRound :: playRound)).
  reflexivity.
Defined.

End HistoryFacts.

(* ================================================================= *)
(** ** Further facts: the rating of a history *)

Module RatingOrderFacts.
Import Rating Further.

Local Open Scope Q_scope.

Lemma js_ge_mono (p1 p2 c : Q) :
  p1 <= p2 -> js_ge (Finite p1) c = true -> js_ge (Finite p2) c = true.
Proof.
  intros Hp H. apply RatingFacts.js_ge_Finite.
  apply RatingFacts.js_ge_Finite in H.
  eapply Qle_trans; eassumption.
Qed.

Lemma percentage_mono (t1 t2 max : Q) :
  0 < max -> t1 <= t2 -> t1 / max * 100 <= t2 / max * 100.
Proof.
  intros Hmax Ht.
  apply Qmult_le_compat_r; [| discriminate].
  unfold Qdiv. apply Qmult_le_compat_r; [exact Ht |].
  apply Qlt_le_weak. apply Qinv_lt_0_compat. exact Hmax.
Qed.

(** Property X19.  With the same positive maximum, a higher total never gets a lower
    rating. *)
Theorem rating_monotone (t1 t2 max : Q) :
  0 < max -> t1 <= t2 ->
  (tierRank (getPerformanceRating t1 max)
   <= tierRank (getPerformanceRating t2 max))%nat.
Proof.
  intros Hmax Ht.
  assert (Hne : ~ max == 0).
  { intro E. rewrite E in Hmax. discriminate Hmax. }
  pose proof (percentage_mono t1 t2 max Hmax Ht) as Hp.
  unfold getPerformanceRating.
  rewrite !(RatingFacts.percentage_finite _ max Hne).
  set (p1 := t1 / max * 100) in *. set (p2 := t2 / max * 100) in *.
  pose proof (js_ge_mono p1 p2 95 Hp) as H95.
  pose proof (js_ge_mono p1 p2 80 Hp) as H80.
  pose proof (js_ge_mono p1 p2 60 Hp) as H60.
  pose proof (js_ge_mono p1 p2 40 Hp) as H40.
  pose proof (js_ge_mono p1 p2 20 Hp) as H20.
  destruct (js_ge (Finite p1) 95); [rewrite (H95 eq_refl); simpl; lia |].
  destruct (js_ge (Finite p1) 80);
    [rewrite (H80 eq_refl); destruct (js_ge (Finite p2) 95); simpl; lia |].
  destruct (js_ge (Finite p1) 60);
    [rewrite (H60 eq_refl);
     destruct (js_ge (Finite p2) 95), (js_ge (Finite p2) 80); simpl; lia |].
  destruct (js_ge (Finite p1) 40);
    [rewrite (H40 eq_refl);
     destruct (js_ge (Finite p2) 95), (js_ge (Finite p2) 80),
       (js_ge (Finite p2) 60); simpl; lia |].
  destruct (js_ge (Finite p1) 20);
    [rewrite (H20 eq_refl);
     destruct (js_ge (Finite p2) 95), (js_ge (Finite p2) 80),
       (js_ge (Finite p2) 60), (js_ge (Finite p2) 40); simpl; lia |].
  simpl. lia.
Qed.

Lemma rating_monotone_witness :
  (tierRank (getPerformanceRating 12500 25000)
   <= tierRank (getPerformanceRating 20000 25000))%nat.
Proof.
  apply rating_monotone; [reflexivity |].
  intro E. vm_compute in E. discriminate E.
Defined.

(** A threshold is reached by the percentage exactly when it is reached
    after multiplying out the division. *)
Lemma threshold_cross_multiplied (t m c : Z) :
  (0 < m)%Z ->
  js_ge (Finite (inject_Z t / inject_Z m * 100)) (inject_Z c) = true
  <-> (c * m <= 100 * t)%Z.
Proof.
  intro Hm. rewrite RatingFacts.js_ge_Finite.
  destruct m as [| p | p]; try lia.
  unfold Qle, Qdiv, Qmult, Qinv, inject_Z. cbn [Qnum Qden].
  rewrite ?Pos.mul_1_l, ?Pos.mul_1_r, ?Z.mul_1_r. lia.
Qed.

(** Property X20.  For a history that is not empty the rating can be read off without
    dividing: each threshold is reached exactly when the total times 100
    reaches the threshold times the maximum. *)
Theorem performance_thresholds (rounds : list Session.RoundResult) :
  rounds <> [] ->
  let t := Session.totalScore rounds in
  let m := Session.maxPossible rounds in
  let rank := tierRank (Session.performance rounds) in
  ((5 <= rank)%nat <-> (95 * m <= 100 * t)%Z)
  /\ ((4 <= rank)%nat <-> (80 * m <= 100 * t)%Z)
  /\ ((3 <= rank)%nat <-> (60 * m <= 100 * t)%Z)
  /\ ((2 <= rank)%nat <-> (40 * m <= 100 * t)%Z)
  /\ ((1 <= rank)%nat <-> (20 * m <= 100 * t)%Z).
Proof.
  intros Hne t m rank.
  assert (Hm : (0 < m)%Z).
  { unfold m, Session.maxPossible.
    destruct rounds as [| r rest]; [contradiction |].
    cbn [List.length]. lia. }
  assert (Hq : ~ inject_Z m == 0).
  { intro E. unfold Qeq in E. simpl in E. lia. }
  pose proof (threshold_cross_multiplied t m 95 Hm) as H95.
  pose proof (threshold_cross_multiplied t m 80 Hm) as H80.
  pose proof (threshold_cross_multiplied t m 60 Hm) as H60.
  pose proof (threshold_cross_multiplied t m 40 Hm) as H40.
  pose proof (threshold_cross_multiplied t m 20 Hm) as H20.
  unfold rank, Session.performance, getPerformanceRating.
  fold t m. rewrite (RatingFacts.percentage_finite _ _ Hq).
  change (inject_Z 95) with 95 in H95. change (inject_Z 80) with 80 in H80.
  change (inject_Z 60) with 60 in H60. change (inject_Z 40) with 40 in H40.
  change (inject_Z 20) with 20 in H20.
  destruct (js_ge (Finite (inject_Z t / inject_Z m * 100)) 95);
  destruct (js_ge (Finite (inject_Z t / inject_Z m * 100)) 80);
  destruct (js_ge (Finite (inject_Z t / inject_Z m * 100)) 60);
  destruct (js_ge (Finite (inject_Z t / inject_Z m * 100)) 40);
  destruct (js_ge (Finite (inject_Z t / inject_Z m * 100)) 20);
  cbn [tierRank];
  repeat match goal with
  | H : true = true <-> _ |- _ =>
      let H' := fresh in
      pose proof (proj1 H eq_refl) as H'; clear H
  | H : false = true <-> ?P |- _ =>
      let H' := fresh in
      assert (H' : ~ P) by (intro Hx; apply H in Hx; discriminate Hx);
      clear H
  end;
  repeat split; intros; lia.
Qed.

Lemma performance_thresholds_witness :
  let rounds := [Session.buildResult 1 Scenario.sample5 Scenario.centre 2] in
  (5 <= tierRank (Session.performance rounds))%nat
  <-> (95 * Session.maxPossible rounds <= 100 * Session.totalScore rounds)%Z.
Proof.
  intro rounds.
  destruct (performance_thresholds rounds) as [H _].
  - discriminate.
  - exact H.
Defined.

End RatingOrderFacts.

(* ================================================================= *)
(** ** Further facts: the application and its panels *)

Module InterfaceFacts.
Import Scoring Session Further.

Local Open Scope R_scope.

(** Property X21.  A click on a map of positive size is reported as a point of the
    map; a click inside the map is reported at its exact percentages. *)
Theorem handleClick_on_map (rect : MapPicker.Rect) (clientX clientY : R) :
  0 < MapPicker.rectWidth rect -> 0 < MapPicker.rectHeight rect ->
  exists p,
    MapPicker.handleClick (Some rect) clientX clientY = Some p
    /\ MapPicker.onMap p
    /\ (MapPicker.rectLeft rect <= clientX
          <= MapPicker.rectLeft rect + MapPicker.rectWidth rect ->
        px p = (clientX - MapPicker.rectLeft rect)
               / MapPicker.rectWidth rect * 100)
    /\ (MapPicker.rectTop rect <= clientY
          <= MapPicker.rectTop rect + MapPicker.rectHeight rect ->
        py p = (clientY - MapPicker.rectTop rect)
               / MapPicker.rectHeight rect * 100).
Proof.
  intros Hw Hh. eexists. split; [reflexivity |].
  cbn [px py]. unfold MapPicker.onMap. cbn [px py].
  assert (Hclamp : forall v, 0 <= Rmax 0 (Rmin 100 v) <= 100).
  { intro v. unfold Rmax, Rmin.
    destruct (Rle_dec 100 v); destruct (Rle_dec 0 _); lra. }
  assert (Hin : forall c o size,
             0 < size -> o <= c <= o + size ->
             Rmax 0 (Rmin 100 ((c - o) / size * 100))
             = (c - o) / size * 100).
  { intros c o size Hs Hc.
    assert (0 <= (c - o) / size <= 1).
    { split.
      - apply Rmult_le_pos; [lra |].
        apply Rlt_le, Rinv_0_lt_compat, Hs.
      - apply (Rmult_le_reg_r size); [exact Hs |].
        unfold Rdiv. rewrite Rmult_assoc, Rinv_l by lra. lra. }
    unfold Rmax, Rmin.
    destruct (Rle_dec 100 _); destruct (Rle_dec 0 _); lra. }
  repeat split; try apply Hclamp.
  - intro Hc. apply Hin; assumption.
  - intro Hc. apply Hin; assumption.
Qed.

Lemma handleClick_on_map_witness :
  exists p,
    MapPicker.handleClick
      (Some {| MapPicker.rectLeft := 10; MapPicker.rectTop := 20;
               MapPicker.rectWidth := 400; MapPicker.rectHeight := 300 |})
      210 500
    = Some p
    /\ MapPicker.onMap p.
Proof.
  destruct (handleClick_on_map
              {| MapPicker.rectLeft := 10; MapPicker.rectTop := 20;
                 MapPicker.rectWidth := 400; MapPicker.rectHeight := 300 |}
              210 500) as (p & Hp & Hon & _); simpl; try lra.
  exists p. split; assumption.
Defined.

Local Close Scope R_scope.

(** What can be called through the interface, spelled out. *)
Lemma uiOffers_cases (s : GameState) (op : Op) :
  App.uiOffers s op = true ->
  (App.truthyError (error s) <> None /\ op = ResetGame)
  \/ (App.truthyError (error s) = None
      /\ match op with
         | StartGame =>
             (screen s = Title /\ isLoading s = false)
             \/ screen s = FinalResults
         | PlaceMarker _ => screen s = Game /\ currentImage s <> None
         | SelectFloor floor =>
             screen s = Game /\ currentImage s <> None
             /\ In floor GameScreen.floors
         | SubmitGuess =>
             screen s = Game /\ currentImage s <> None
             /\ GameScreen.canSubmit (guessLocation s) (guessFloor s) = true
         | NextRound =>
             screen s = Result /\ currentResult s <> None
             /\ (currentRound s < TOTAL_ROUNDS)%nat
         | ViewFinalResults =>
             screen s = Result /\ currentResult s <> None
             /\ (TOTAL_ROUNDS <= currentRound s)%nat
         | ResetGame =>
             (screen s = Game /\ currentImage s <> None)
             \/ screen s = FinalResults
         end).
Proof.
  destruct s as [sc rd im gl gf cr rr ld er].
  unfold App.uiOffers, App.render, App.onScreen.
  cbn [screen currentRound currentImage guessLocation guessFloor
       currentResult roundResults isLoading error].
  destruct (App.truthyError er) as [message |] eqn:He.
  - intro H. left. split; [discriminate |].
    destruct op; simpl in H; try discriminate H. reflexivity.
  - intro H. right. split; [reflexivity |].
    destruct sc; destruct im as [image |]; destruct cr as [result |];
      destruct ld; destruct op as [| coords | floor | | | |];
      cbn [App.isSome andb negb App.when app existsb App.panelOffers orb
           screen currentRound currentImage guessLocation guessFloor
           currentResult roundResults isLoading error] in H;
      try discriminate H;
      try rewrite orb_false_r in H;
      repeat match goal with
      | |- _ /\ _ => split
      | |- (Title = Title /\ _) \/ _ => left
      | |- _ \/ FinalResults = FinalResults => right
      | |- (Game = Game /\ _) \/ _ => left
      | |- Some _ <> None => discriminate
      | |- ?x = ?x => reflexivity
      | |- In _ _ =>
          let f := fresh in
          let Hin := fresh in
          let Heq := fresh in
          apply existsb_exists in H as (f & Hin & Heq);
          apply Z.eqb_eq in Heq; subst f; exact Hin
      | |- (_ < _)%nat =>
          apply negb_true_iff in H; apply Nat.leb_gt in H; exact H
      | |- (_ <= _)%nat => apply Nat.leb_le in H; exact H
      | |- _ = true => exact H
      end.
Qed.

Lemma uiOffers_offered (s : GameState) (op : Op) :
  App.uiOffers s op = true -> offered s op = true.
Proof.
  intro H. unfold offered.
  destruct (uiOffers_cases s op H) as [[_ ->] | [_ Hop]]; [reflexivity |].
  destruct op as [| coords | floor | | | |].
  - destruct Hop as [[-> _] | ->]; reflexivity.
  - destruct Hop as [-> _]. reflexivity.
  - destruct Hop as [-> _]. reflexivity.
  - destruct Hop as [-> _]. reflexivity.
  - destruct Hop as [-> _]. reflexivity.
  - destruct Hop as [-> _]. reflexivity.
  - reflexivity.
Qed.

Lemma truthyError_known (s : GameState) :
  errorKnown s ->
  App.truthyError (error s) = error s.
Proof.
  intros [-> | ->]; reflexivity.
Qed.

Section AnyProvider.

Variable provider : nat -> option Image.

Lemma run_weaken (allow1 allow2 : GameState -> Op -> bool) :
  (forall s op, allow1 s op = true -> allow2 s op = true) ->
  forall ops w w',
    run provider allow1 ops w = Some w' ->
    run provider allow2 ops w = Some w'.
Proof.
  intros Himp ops. induction ops as [| op rest IH]; intros w w' Hrun.
  - exact Hrun.
  - simpl in *. destruct (allow1 (game w) op) eqn:Ha; [| discriminate Hrun].
    rewrite (Himp _ _ Ha). apply IH. exact Hrun.
Qed.

Lemma errorKnown_step (w : World) (op : Op) :
  errorKnown (game w) -> errorKnown (game (step provider op w)).
Proof.
  unfold errorKnown. intro H.
  destruct op as [| coords | floor | | | |].
  - destruct (SessionFacts.step_startGame_cases provider w)
      as [(image & _ & ->) | (_ & ->)]; simpl; auto.
  - exact H.
  - exact H.
  - destruct (SessionFacts.step_submitGuess_cases provider w)
      as [-> | (result & ->)]; [exact H | exact H].
  - destruct (Nat.le_gt_cases TOTAL_ROUNDS (currentRound (game w)))
      as [Hge | Hlt].
    + rewrite (SessionFacts.step_nextRound_last provider w Hge). exact H.
    + destruct (provider (calls w)) as [image |] eqn:Hp.
      * rewrite (SessionFacts.step_nextRound_resolved provider w image
                   Hlt Hp). simpl. auto.
      * rewrite (SessionFacts.step_nextRound_rejected provider w Hlt Hp).
        simpl. auto.
  - exact H.
  - rewrite SessionFacts.step_resetGame. simpl. auto.
Qed.

Lemma imageShown_step (w : World) (op : Op) :
  imageShown (game w) -> offered (game w) op = true ->
  imageShown (game (step provider op w)).
Proof.
  unfold imageShown, offered. intros H Hallow.
  destruct op as [| coords | floor | | | |].
  - destruct (SessionFacts.step_startGame_cases provider w)
      as [(image & _ & ->) | (_ & ->)];
      cbn [game screen currentImage].
    + intros _. discriminate.
    + destruct (screen (game w)); try discriminate Hallow;
        intros [Hd | Hd]; discriminate Hd.
  - exact H.
  - exact H.
  - destruct (SessionFacts.step_submitGuess_cases provider w)
      as [-> | (result & ->)]; [exact H |].
    cbn [game screen currentImage]. intros _. apply H.
    destruct (screen (game w)); try discriminate Hallow. left. reflexivity.
  - assert (Hi : currentImage (game w) <> None).
    { apply H. destruct (screen (game w)); try discriminate Hallow.
      right. reflexivity. }
    destruct (Nat.le_gt_cases TOTAL_ROUNDS (currentRound (game w)))
      as [Hge | Hlt].
    + rewrite (SessionFacts.step_nextRound_last provider w Hge).
      cbn [game screen currentImage]. intros _. exact Hi.
    + destruct (provider (calls w)) as [image |] eqn:Hp.
      * rewrite (SessionFacts.step_nextRound_resolved provider w image
                   Hlt Hp).
        cbn [game screen currentImage]. intros _. discriminate.
      * rewrite (SessionFacts.step_nextRound_rejected provider w Hlt Hp).
        cbn [game screen currentImage]. intros _. exact Hi.
  - rewrite SessionFacts.step_viewFinalResults.
    cbn [game screen currentImage]. intros [Hd | Hd]; discriminate Hd.
  - rewrite SessionFacts.step_resetGame.
    cbn [game screen currentImage]. intros [Hd | Hd]; discriminate Hd.
Qed.

Lemma uiInv_initial : uiInv initialWorld.
Proof.
  unfold uiInv. simpl. repeat split; try (left; reflexivity).
  intros f Hf. discriminate Hf.
Qed.

Lemma uiInv_step (w : World) (op : Op) :
  uiInv w -> App.uiOffers (game w) op = true ->
  uiInv (step provider op w).
Proof.
  unfold uiInv. cbv zeta. intros (Hload & Hfloor & Herr & Hmain) Hallow.
  pose proof (uiOffers_cases _ _ Hallow) as Hcases.
  rewrite (truthyError_known _ Herr) in Hcases.
  destruct Hcases as [[_ ->] | [He Hop]].
  - rewrite SessionFacts.step_resetGame.
    cbn [game screen currentRound currentImage guessFloor currentResult
         roundResults isLoading error].
    split; [exact Hload |]. split; [intros f Hf; discriminate Hf |].
    split; [left; reflexivity | intros _; reflexivity].
  - specialize (Hmain He).
    destruct op as [| coords | floor | | | |].
    + destruct (SessionFacts.step_startGame_cases provider w)
        as [(image & _ & ->) | (_ & ->)];
        cbn [game screen currentRound currentImage guessFloor
             currentResult roundResults isLoading error List.length].
      * split; [reflexivity |]. split; [intros f Hf; discriminate Hf |].
        split; [left; reflexivity |]. intros _.
        split; [reflexivity |].
        split; [unfold TOTAL_ROUNDS; lia | discriminate].
      * split; [reflexivity |]. split; [exact Hfloor |].
        split; [right; reflexivity |]. intro Hd. discriminate Hd.
    + rewrite SessionFacts.step_placeMarker.
      cbn [game screen currentRound currentImage guessFloor
           currentResult roundResults isLoading error].
      split; [exact Hload |]. split; [exact Hfloor |].
      split; [exact Herr |]. intros _. exact Hmain.
    + rewrite SessionFacts.step_selectFloor.
      cbn [game screen currentRound currentImage guessFloor
           currentResult roundResults isLoading error].
      destruct Hop as (_ & _ & Hin).
      split; [exact Hload |].
      split; [intros f Hf; injection Hf as <-; exact Hin |].
      split; [exact Herr |]. intros _. exact Hmain.
    + destruct Hop as (Hs & _ & _). rewrite Hs in Hmain.
      destruct Hmain as (Hr & Hle & Hi).
      destruct (SessionFacts.step_submitGuess_cases provider w)
        as [-> | (result & ->)].
      * split; [exact Hload |]. split; [exact Hfloor |].
        split; [exact Herr |]. intros _. rewrite Hs.
        split; [exact Hr |]. split; [exact Hle | exact Hi].
      * cbn [game screen currentRound currentImage guessFloor
             currentResult roundResults isLoading error].
        split; [exact Hload |]. split; [exact Hfloor |].
        split; [exact Herr |]. intros _.
        rewrite length_app. simpl List.length.
        split; [lia |]. split; [exact Hle | discriminate].
    + destruct Hop as (Hs & _ & Hlt). rewrite Hs in Hmain.
      destruct Hmain as (Hr & Hle & Hc).
      destruct (provider (calls w)) as [image |] eqn:Hp.
      * rewrite (SessionFacts.step_nextRound_resolved provider w image
                   Hlt Hp).
        cbn [game screen currentRound currentImage guessFloor
             currentResult roundResults isLoading error].
        split; [reflexivity |]. split; [intros f Hf; discriminate Hf |].
        split; [left; reflexivity |]. intros _.
        unfold TOTAL_ROUNDS in *.
        split; [lia |]. split; [lia | discriminate].
      * rewrite (SessionFacts.step_nextRound_rejected provider w Hlt Hp).
        cbn [game screen currentRound currentImage guessFloor
             currentResult roundResults isLoading error].
        split; [reflexivity |]. split; [exact Hfloor |].
        split; [right; reflexivity |]. intro Hd. discriminate Hd.
    + destruct Hop as (Hs & _ & Hge). rewrite Hs in Hmain.
      destruct Hmain as (Hr & Hle & Hc).
      rewrite SessionFacts.step_viewFinalResults.
      cbn [game screen currentRound currentImage guessFloor
           currentResult roundResults isLoading error].
      split; [exact Hload |]. split; [exact Hfloor |].
      split; [exact Herr |]. intros _. split; lia.
    + rewrite SessionFacts.step_resetGame.
      cbn [game screen currentRound currentImage guessFloor
           currentResult roundResults isLoading error].
      split; [exact Hload |]. split; [intros f Hf; discriminate Hf |].
      split; [left; reflexivity | intros _; reflexivity].
Qed.

Lemma uiInv_run (ops : list Op) (w : World) :
  run provider App.uiOffers ops initialWorld = Some w -> uiInv w.
Proof.
  apply (SessionFacts.run_invariant provider App.uiOffers uiInv uiInv_step).
  exact uiInv_initial.
Qed.

(** Property X24.  Played through the interface, an enabled Guess button always
    submits: the result screen follows, and the history gains one
    record, which carries the number of the current round. *)
Theorem guess_button_submits (ops : list Op) (w : World) :
  run provider App.uiOffers ops initialWorld = Some w ->
  App.uiOffers (game w) SubmitGuess = true ->
  exists r,
    roundNumber r = currentRound (game w)
    /\ screen (game (step provider SubmitGuess w)) = Result
    /\ currentResult (game (step provider SubmitGuess w)) = Some r
    /\ roundResults (game (step provider SubmitGuess w))
       = roundResults (game w) ++ [r].
Proof.
  intros Hrun Hallow.
  destruct (uiInv_run ops w Hrun) as (_ & Hfloor & Herr & _).
  pose proof (uiOffers_cases _ _ Hallow) as Hcases.
  destruct Hcases as [[_ Hd] | [_ (Hs & Hi & Hcan)]]; [discriminate Hd |].
  unfold GameScreen.canSubmit in Hcan.
  destruct (guessLocation (game w)) as [guess |] eqn:Hg;
    [| discriminate Hcan].
  destruct (guessFloor (game w)) as [floor |] eqn:Hf; [| discriminate Hcan].
  destruct (currentImage (game w)) as [image |] eqn:Him;
    [| contradiction].
  assert (Htruthy : truthyFloor (guessFloor (game w)) = Some floor).
  { rewrite Hf. unfold truthyFloor.
    specialize (Hfloor floor eq_refl).
    unfold GameScreen.floors in Hfloor. simpl in Hfloor.
    destruct (Z.eqb_spec floor 0) as [-> | _]; [| reflexivity].
    destruct Hfloor as [H | [H | [H | [H | []]]]]; discriminate H. }
  exists (buildResult (currentRound (game w)) image guess floor).
  rewrite (SessionFacts.step_submitGuess_complete provider w guess floor
             image Hg Htruthy Him).
  repeat split; reflexivity.
Qed.

(** Property X25.  Played through the interface, an error leaves one way on: the error
    panel is all that is rendered, [resetGame] is the only call it
    offers, and that call gives back the initial state. *)
Theorem error_panel_only_reset (ops : list Op) (w : World) :
  run provider App.uiOffers ops initialWorld = Some w ->
  error (game w) <> None ->
  App.render (game w) = [App.ErrorPanel loadFailure]
  /\ (forall op, App.uiOffers (game w) op = true -> op = ResetGame)
  /\ game (step provider ResetGame w) = initialState.
Proof.
  intros Hrun He.
  destruct (uiInv_run ops w Hrun) as (Hload & _ & Herr & _).
  destruct Herr as [Hnone | Hsome]; [contradiction |].
  split; [| split].
  - unfold App.render. rewrite Hsome. reflexivity.
  - intros op Hop.
    destruct (uiOffers_cases _ _ Hop) as [[_ ->] | [Hd _]];
      [reflexivity |].
    rewrite Hsome in Hd. discriminate Hd.
  - rewrite SessionFacts.step_resetGame. cbn [game]. rewrite Hload.
    reflexivity.
Qed.

End AnyProvider.

Import Scenario.

Lemma guess_button_submits_witness :
  exists r,
    roundNumber r = 1%nat
    /\ screen (game (step alwaysResolves SubmitGuess
                       (exec alwaysResolves
                             [StartGame; PlaceMarker centre; SelectFloor 2]
                             initialWorld)))
       = Result.
Proof.
  destruct (guess_button_submits alwaysResolves
              [StartGame; PlaceMarker centre; SelectFloor 2]
              (exec alwaysResolves
                    [StartGame; PlaceMarker centre; SelectFloor 2]
                    initialWorld))
    as (r & Hn & Hs & _).
  - vm_compute. reflexivity.
  - vm_compute. reflexivity.
  - exists r. split; assumption.
Defined.

Lemma error_panel_only_reset_witness :
  App.render (game (exec (rejectsAfter 0) [StartGame] initialWorld))
  = [App.ErrorPanel loadFailure].
Proof.
  apply (error_panel_only_reset (rejectsAfter 0) [StartGame]).
  - vm_compute. reflexivity.
  - vm_compute. discriminate.
Defined.

End InterfaceFacts.

(* ================================================================= *)
(** ** Further facts: the image service *)

Module ImageServiceFacts.
Import Scoring Session ImageService.

(** With a random number in [[0, 1)], the index drawn for an array that
    is not empty is an index of the array. *)
Lemma random_item {A} (random : R) (array : list A) :
  (0 <= random < 1)%R -> array <> [] ->
  exists x, item array (randomIndex random array) = Some x /\ In x array.
Proof.
  intros [H0 H1] Hne. unfold item, randomIndex.
  set (n := List.length array).
  assert (Hn : (0 < n)%nat).
  { unfold n. destruct array; [contradiction | simpl; lia]. }
  assert (HnR : (0 < IZR (Z.of_nat n))%R) by (apply IZR_lt; lia).
  set (i := Zfloor (random * IZR (Z.of_nat n))).
  assert (Hi0 : 0 <= i).
  { apply Zfloor_lub. apply Rmult_le_pos; lra. }
  assert (Hi1 : i < Z.of_nat n).
  { apply lt_IZR.
    destruct (Zfloor_bound (random * IZR (Z.of_nat n))) as [Hlo _].
    fold i in Hlo.
    assert (random * IZR (Z.of_nat n) < IZR (Z.of_nat n))%R by nra.
    lra. }
  destruct (Z.ltb_spec i 0) as [Hneg | _]; [lia |].
  destruct (nth_error array (Z.to_nat i)) as [x |] eqn:Hx.
  - exists x. split; [reflexivity |]. eapply nth_error_In. exact Hx.
  - apply nth_error_None in Hx. fold n in Hx. lia.
Qed.

Lemma SAMPLE_IMAGES_not_empty : SAMPLE_IMAGES <> [].
Proof. discriminate. Qed.

Lemma getRandomImage_delivers_aux (firestore : Firestore) (random : R) :
  (0 <= random < 1)%R ->
  exists image,
    getRandomImage firestore random = Returned (Some image)
    /\ match firestore with
       | Snapshot (doc :: docs) => In image (doc :: docs)
       | _ => In image SAMPLE_IMAGES
       end.
Proof.
  intro Hr. unfold getRandomImage, fromFirestore, getRandomSampleImage.
  destruct firestore as [| [| doc docs]].
  - destruct (random_item random SAMPLE_IMAGES Hr SAMPLE_IMAGES_not_empty)
      as (x & -> & Hin).
    exists x. split; [reflexivity | exact Hin].
  - destruct (random_item random SAMPLE_IMAGES Hr SAMPLE_IMAGES_not_empty)
      as (x & -> & Hin).
    exists x. split; [reflexivity | exact Hin].
  - destruct (random_item random (doc :: docs) Hr ltac:(discriminate))
      as (x & -> & Hin).
    exists x. split; [reflexivity | exact Hin].
Qed.

(** Property X26.  [getRandomImage] always delivers an image: one of the documents when
    Firestore has any, one of the five samples when the collection is
    empty or Firestore fails.  It never throws and never delivers
    nothing. *)
Theorem getRandomImage_delivers (firestore : Firestore) (random : R) :
  (0 <= random < 1)%R ->
  exists image,
    getRandomImage firestore random = Returned (Some image)
    /\ match firestore with
       | Snapshot (doc :: docs) => In image (doc :: docs)
       | _ => In image SAMPLE_IMAGES
       end.
Proof.
  exact (getRandomImage_delivers_aux firestore random).
Qed.

Lemma getRandomImage_delivers_witness :
  exists image,
    getRandomImage Unavailable (/ 2) = Returned (Some image)
    /\ In image SAMPLE_IMAGES.
Proof.
  apply (getRandomImage_delivers Unavailable (/ 2)). lra.
Defined.

Lemma asProvider_resolves (firestore : nat -> Firestore) (random : nat -> R) :
  (forall n, (0 <= random n < 1)%R) ->
  forall n, exists image, asProvider firestore random n = Some image.
Proof.
  intros Hr n. unfold asProvider.
  destruct (getRandomImage_delivers_aux (firestore n) (random n) (Hr n))
    as (image & -> & _).
  exists image. reflexivity.
Qed.

Section Served.

Variable firestore : nat -> Firestore.
Variable random : nat -> R.
Hypothesis random_range : forall n, (0 <= random n < 1)%R.

Lemma served_step (w : World) (op : Op) :
  error (game w) = None ->
  error (game (step (asProvider firestore random) op w)) = None.
Proof.
  intro He.
  destruct (asProvider_resolves firestore random random_range (calls w))
    as (image & Hp).
  destruct op as [| coords | floor | | | |].
  - rewrite (SessionFacts.step_startGame_resolved _ w image Hp).
    reflexivity.
  - exact He.
  - exact He.
  - destruct (SessionFacts.step_submitGuess_cases
                (asProvider firestore random) w)
      as [-> | (result & ->)]; exact He.
  - destruct (Nat.le_gt_cases TOTAL_ROUNDS (currentRound (game w)))
      as [Hge | Hlt].
    + rewrite (SessionFacts.step_nextRound_last _ w Hge). exact He.
    + rewrite (SessionFacts.step_nextRound_resolved _ w image Hlt Hp).
      reflexivity.
  - exact He.
  - reflexivity.
Qed.

Lemma served_no_error (ops : list Op) :
  error (game (exec (asProvider firestore random) ops initialWorld)) = None.
Proof.
  apply (HistoryFacts.exec_invariant (asProvider firestore random)
           (fun w => error (game w) = None)).
  - intros w op. apply served_step.
  - reflexivity.
Qed.

End Served.

(** Property X27.  With the image service as the provider, no sequence of calls ever
    sets the error: whatever Firestore answers, every fetch resolves. *)
Theorem session_never_fails (firestore : nat -> Firestore)
    (random : nat -> R) (ops : list Op) :
  (forall n, (0 <= random n < 1)%R) ->
  error (game (exec (asProvider firestore random) ops initialWorld)) = None.
Proof.
  intro Hr. apply served_no_error. exact Hr.
Qed.

Lemma session_never_fails_witness :
  error (game (exec (asProvider (fun _ => Unavailable) (fun _ => (/ 2)%R))
                    Scenario.fullMatch initialWorld))
  = None.
Proof.
  apply session_never_fails. intro n. lra.
Defined.

End ImageServiceFacts.

(* ================================================================= *)
(** ** Facts about the hook with its fetches in flight *)

Module AsyncFacts.
Import Scoring Session Further Async.

Section AnyProvider.

Variable provider : nat -> option Image.

(** A callback that does not suspend has done, when it returns, what the
    completed call does. *)
Lemma begin_returns (op : Op) (w w' : World) :
  begin op w = (None, w') -> w' = step provider op w.
Proof.
  destruct op as [| coords | floor | | | |]; unfold begin.
  - intro H. discriminate H.
  - intro H. injection H as <-. reflexivity.
  - intro H. injection H as <-. reflexivity.
  - unfold step, perform, bind.
    destruct (submitGuess w) as [u w1]. intro H. injection H as <-.
    reflexivity.
  - unfold step, perform, nextRound, bind, getState.
    destruct (TOTAL_ROUNDS <=? currentRound (game w))%nat.
    + intro H. injection H as <-. reflexivity.
    + intro H. discriminate H.
  - intro H. injection H as <-. reflexivity.
  - intro H. injection H as <-. reflexivity.
Qed.

(** A suspended callback waits for the provider call it made, and once
    that promise settles it has done what the completed call does. *)
Lemma begin_then_resume (op : Op) (w w' : World) (s : Suspended) :
  begin op w = (Some s, w') ->
  fetch s = calls w
  /\ snd (resume (continuation s) (provider (fetch s)) w')
     = step provider op w.
Proof.
  destruct op as [| coords | floor | | | |]; unfold begin.
  - intro H. injection H as <- <-. split; reflexivity.
  - intro H. discriminate H.
  - intro H. discriminate H.
  - unfold bind. destruct (submitGuess w). intro H. discriminate H.
  - unfold step, perform, nextRound, bind, getState.
    destruct (TOTAL_ROUNDS <=? currentRound (game w))%nat.
    + intro H. discriminate H.
    + intro H. injection H as <- <-. split; reflexivity.
  - intro H. discriminate H.
  - intro H. discriminate H.
Qed.

(** The two ways to be suspended, with the state committed meanwhile. *)
Lemma begin_suspends (op : Op) (w w' : World) (s : Suspended) :
  begin op w = (Some s, w') ->
  (op = StartGame
   /\ game w'
      = {| screen := screen (game w); currentRound := 1;
           currentImage := currentImage (game w);
           guessLocation := guessLocation (game w);
           guessFloor := guessFloor (game w);
           currentResult := None; roundResults := [];
           isLoading := true; error := None |})
  \/ (op = NextRound
      /\ (currentRound (game w) < TOTAL_ROUNDS)%nat
      /\ game w'
         = {| screen := screen (game w);
              currentRound := currentRound (game w) + 1;
              currentImage := currentImage (game w);
              guessLocation := guessLocation (game w);
              guessFloor := guessFloor (game w);
              currentResult := None;
              roundResults := roundResults (game w);
              isLoading := true; error := None |}).
Proof.
  destruct op as [| coords | floor | | | |]; unfold begin.
  - intro H. injection H as _ <-. left. split; reflexivity.
  - intro H. discriminate H.
  - intro H. discriminate H.
  - unfold bind. destruct (submitGuess w). intro H. discriminate H.
  - unfold bind, getState.
    destruct (Nat.leb_spec TOTAL_ROUNDS (currentRound (game w)))
      as [Hge | Hlt].
    + intro H. discriminate H.
    + intro H. injection H as _ <-. right.
      split; [reflexivity |]. split; [exact Hlt | reflexivity].
  - intro H. discriminate H.
  - intro H. discriminate H.
Qed.

(** Completed calls are one of the courses of events: each call
    followed at once by the settlement of its fetch. *)
Lemma exec_is_play (ops : list Op) (w : World) :
  play provider (completeEach ops) (atRest w)
  = atRest (exec provider ops w).
Proof.
  revert w. induction ops as [| op rest IH]; intro w.
  - reflexivity.
  - cbn [completeEach flat_map app play exec].
    fold (completeEach rest).
    assert (Hstep : react provider (Settle 0)
                      (react provider (Invoke op) (atRest w))
                    = atRest (step provider op w)).
    { unfold react at 2. cbn [world suspended atRest].
      destruct (begin op w) as [[s |] w'] eqn:Hb.
      - cbn [app react nth_error world suspended removeAt].
        destruct (begin_then_resume op w w' s Hb) as [_ ->]. reflexivity.
      - cbn [app react nth_error world suspended].
        rewrite (begin_returns op w w' Hb). reflexivity. }
    rewrite Hstep. apply IH.
Qed.

Section OneAtATime.

Variable allow : GameState -> Op -> bool.
Variable Q : World -> Prop.
Hypothesis Q_step :
  forall w op, Q w -> allow (game w) op = true -> Q (step provider op w).

Lemma stage_react (h : Hook) (e : Event) :
  stage Q allow h -> oneAtATime allow h e = true ->
  stage Q allow (react provider e h).
Proof.
  intros [[Hq HQ] | (w0 & op & s & HQ & Ha & Hb & Hs)] Hallow.
  - destruct e as [op | i]; unfold react.
    + unfold oneAtATime in Hallow. apply andb_prop in Hallow as [_ Ha].
      destruct (begin op (world h)) as [[s |] w'] eqn:Hb.
      * right. exists (world h), op, s. cbn [world suspended].
        rewrite Hq. repeat split; assumption.
      * left. cbn [world suspended]. rewrite Hq. split; [reflexivity |].
        rewrite (begin_returns op _ _ Hb). apply Q_step; assumption.
    + rewrite Hq. destruct i; simpl; left; split; assumption.
  - destruct e as [op' | i]; unfold react.
    + unfold oneAtATime, quiet in Hallow. rewrite Hs in Hallow.
      discriminate Hallow.
    + rewrite Hs. destruct i as [| j].
      * cbn [nth_error removeAt world suspended]. left.
        split; [reflexivity |].
        destruct (begin_then_resume op w0 (world h) s Hb) as [_ ->].
        apply Q_step; assumption.
      * assert (Hn : nth_error [s] (S j) = None)
          by (destruct j; reflexivity).
        rewrite Hn. right. exists w0, op, s. repeat split; assumption.
Qed.

Lemma stage_play (events : list Event) (h h' : Hook) :
  stage Q allow h ->
  playGuarded provider (oneAtATime allow) events h = Some h' ->
  stage Q allow h'.
Proof.
  revert h. induction events as [| e rest IH]; intros h Hst Hplay.
  - simpl in Hplay. injection Hplay as <-. exact Hst.
  - simpl in Hplay.
    destruct (oneAtATime allow h e) eqn:Ha; [| discriminate Hplay].
    apply (IH (react provider e h)); [| exact Hplay].
    apply stage_react; assumption.
Qed.

Lemma stage_from_start (events : list Event) (h : Hook) :
  Q initialWorld ->
  playGuarded provider (oneAtATime allow) events initialHook = Some h ->
  stage Q allow h.
Proof.
  intros H0. apply stage_play. left. split; [reflexivity | exact H0].
Qed.

End OneAtATime.

(** *** Invariants of completed calls, put together *)

Lemma finalRecord_step (w : World) (op : Op) :
  offeredInv w -> finalRecord (game w) -> offered (game w) op = true ->
  finalRecord (game (step provider op w)).
Proof.
  unfold finalRecord, offeredInv, offered. intros Hinv Hfin Hallow.
  destruct op as [| coords | floor | | | |].
  - destruct (SessionFacts.step_startGame_cases provider w)
      as [(image & _ & ->) | (_ & ->)];
      cbn [game screen roundResults currentResult].
    + intro Hd. discriminate Hd.
    + intros _ Hne. contradiction.
  - destruct (screen (game w)) eqn:Hs; try discriminate Hallow.
    rewrite SessionFacts.step_placeMarker. cbn [game screen]. rewrite Hs.
    intro Hd. discriminate Hd.
  - destruct (screen (game w)) eqn:Hs; try discriminate Hallow.
    rewrite SessionFacts.step_selectFloor. cbn [game screen]. rewrite Hs.
    intro Hd. discriminate Hd.
  - destruct (screen (game w)) eqn:Hs; try discriminate Hallow.
    destruct (SessionFacts.step_submitGuess_cases provider w)
      as [-> | (result & ->)].
    + rewrite Hs. intro Hd. discriminate Hd.
    + cbn [game screen]. intro Hd. discriminate Hd.
  - destruct (screen (game w)) eqn:Hs; try discriminate Hallow.
    destruct Hinv as (_ & _ & Hc).
    destruct (SessionFacts.step_nextRound_cases provider w)
      as [(_ & _ & _ & Hcr & _ & _) | (_ & Hs' & _ & _ & _ & _)].
    + intros _ _. rewrite Hcr. exact Hc.
    + rewrite Hs'. intro Hd. discriminate Hd.
  - destruct (screen (game w)) eqn:Hs; try discriminate Hallow.
    destruct Hinv as (_ & _ & Hc).
    rewrite SessionFacts.step_viewFinalResults.
    cbn [game screen roundResults currentResult]. intros _ _. exact Hc.
  - rewrite SessionFacts.step_resetGame. cbn [game screen].
    intro Hd. discriminate Hd.
Qed.

Lemma screensInv_initial : screensInv initialWorld.
Proof.
  unfold screensInv.
  split; [exact SessionFacts.offeredInv_initial |].
  split; [exact HistoryFacts.settled_initial |].
  split; [reflexivity |].
  split; [intros [Hd | Hd]; discriminate Hd |].
  split; [left; reflexivity |].
  intro Hd. discriminate Hd.
Qed.

Lemma screensInv_step (w : World) (op : Op) :
  screensInv w -> offered (game w) op = true ->
  screensInv (step provider op w).
Proof.
  intros (Hoff & Hset & Hnum & Himg & Herr & Hfin) Hallow.
  destruct (HistoryFacts.numbered_step provider w op (conj Hoff Hnum) Hallow)
    as [Hoff' Hnum'].
  unfold screensInv.
  split; [exact Hoff' |].
  split; [apply HistoryFacts.settled_step; exact Hset |].
  split; [exact Hnum' |].
  split; [apply InterfaceFacts.imageShown_step; assumption |].
  split; [apply InterfaceFacts.errorKnown_step; exact Herr |].
  apply finalRecord_step; assumption.
Qed.

Lemma interfaceInv_initial : interfaceInv initialWorld.
Proof.
  unfold interfaceInv.
  split; [exact InterfaceFacts.uiInv_initial |].
  split; [exact SessionFacts.offeredInv_initial | reflexivity].
Qed.

Lemma interfaceInv_step (w : World) (op : Op) :
  interfaceInv w -> App.uiOffers (game w) op = true ->
  interfaceInv (step provider op w).
Proof.
  intros (Hui & Hoff & Hnum) Hallow.
  pose proof (InterfaceFacts.uiOffers_offered _ _ Hallow) as Ho.
  destruct (HistoryFacts.numbered_step provider w op (conj Hoff Hnum) Ho)
    as [Hoff' Hnum'].
  unfold interfaceInv.
  split; [apply InterfaceFacts.uiInv_step; assumption |].
  split; assumption.
Qed.

Lemma offered_suspends (w w' : World) (op : Op) (s : Suspended) :
  offered (game w) op = true -> begin op w = (Some s, w') ->
  (op = StartGame
   /\ (screen (game w) = Title \/ screen (game w) = FinalResults)
   /\ screen (game w') = screen (game w)
   /\ currentRound (game w') = 1%nat
   /\ currentResult (game w') = None
   /\ roundResults (game w') = []
   /\ isLoading (game w') = true
   /\ error (game w') = None)
  \/ (op = NextRound
      /\ screen (game w) = Result
      /\ (currentRound (game w) < TOTAL_ROUNDS)%nat
      /\ screen (game w') = Result
      /\ currentRound (game w') = (currentRound (game w) + 1)%nat
      /\ currentResult (game w') = None
      /\ roundResults (game w') = roundResults (game w)
      /\ isLoading (game w') = true
      /\ error (game w') = None).
Proof.
  intros Hallow Hb.
  destruct (begin_suspends op w w' s Hb) as [[-> Hg] | (-> & Hlt & Hg)];
    rewrite Hg; cbn [screen currentRound currentResult roundResults
                     isLoading error]; unfold offered in Hallow.
  - left. split; [reflexivity |].
    split; [destruct (screen (game w)); try discriminate Hallow; auto |].
    repeat split; reflexivity.
  - right. split; [reflexivity |].
    assert (Hs : screen (game w) = Result)
      by (destruct (screen (game w)); try discriminate Hallow; reflexivity).
    split; [exact Hs |]. split; [exact Hlt |].
    split; [exact Hs |]. repeat split; reflexivity.
Qed.

(** *** The claims about reachable states, fetches in flight included *)

(** Claim C3, amended.  When the callbacks are called one at a time (no
    call while a fetch is in flight) and [submitGuess] is called on the
    game screen only, the history never holds more than [TOTAL_ROUNDS]
    = 5 records: not after a call, and not while a fetch is in flight.
    (With two fetches of [startGame] in flight the second resolution
    reopens round 1 over a history that already has a record:
    [late_second_start].) *)
Theorem history_bound_one_at_a_time (events : list Event) (h : Hook) :
  playGuarded provider (oneAtATime submitOnGameScreen) events initialHook
  = Some h ->
  (List.length (roundResults (game (world h))) <= TOTAL_ROUNDS)%nat.
Proof.
  intro Hplay.
  destruct (stage_from_start submitOnGameScreen boundInv
              (SessionFacts.boundInv_step provider) events h
              SessionFacts.boundInv_initial Hplay)
    as [[_ (Hr & Hl & _)] | (w0 & op & s & (Hr & Hl & _) & _ & Hb & _)].
  - lia.
  - destruct (begin_suspends op w0 (world h) s Hb)
      as [[_ Hg] | (_ & _ & Hg)]; rewrite Hg; cbn [roundResults].
    + simpl. unfold TOTAL_ROUNDS. lia.
    + lia.
Qed.

(** Claim C6, amended.  When the callbacks are called one at a time, on
    the screen that offers them: on the game screen the round counter
    is the length of the history plus one; on the result screen it is
    the length of the history, and the length plus one while the fetch
    of [nextRound] is in flight ([isLoading]); and whenever the history
    holds [TOTAL_ROUNDS] records the counter is [TOTAL_ROUNDS]. *)
Theorem round_counter_by_screen_and_loading
    (events : list Event) (h : Hook) :
  playGuarded provider (oneAtATime offered) events initialHook = Some h ->
  let s := game (world h) in
  (screen s = Game ->
   currentRound s = (List.length (roundResults s) + 1)%nat)
  /\ (screen s = Result -> isLoading s = false ->
      currentRound s = List.length (roundResults s))
  /\ (screen s = Result -> isLoading s = true ->
      currentRound s = (List.length (roundResults s) + 1)%nat)
  /\ (finished s -> currentRound s = TOTAL_ROUNDS).
Proof.
  intros Hplay st. unfold st, finished.
  destruct (stage_from_start offered screensInv screensInv_step events h
              screensInv_initial Hplay)
    as [[_ Hinv] | (w0 & op & su & Hinv & Ha & Hb & _)];
    destruct Hinv as (Hoff & (_ & _ & Hload) & _).
  - unfold offeredInv in Hoff. cbv zeta in Hoff. unfold TOTAL_ROUNDS in *.
    destruct (screen (game (world h))) eqn:Hs; repeat split; intros;
      try discriminate; try congruence.
    + destruct Hoff as [Hrr _]. rewrite Hrr in *. discriminate.
    + destruct Hoff as (Hr & _). exact Hr.
    + destruct Hoff as (Hr & Hle & _). lia.
    + destruct Hoff as (Hr & _). exact Hr.
    + destruct Hoff as (Hr & Hle & _). lia.
    + destruct Hoff as [(Hr & Hle) | (_ & Hrr)];
        [lia | rewrite Hrr in *; discriminate].
  - unfold offeredInv in Hoff. cbv zeta in Hoff. unfold TOTAL_ROUNDS in *.
    destruct (offered_suspends w0 (world h) op su Ha Hb)
      as [(_ & Hs0 & Hs & Hr & _ & Hrr & Hl & _)
         | (_ & Hs0 & Hlt & Hs & Hr & _ & Hrr & Hl & _)].
    + rewrite Hs, Hr, Hrr, Hl.
      repeat split; intros; try discriminate;
        destruct Hs0 as [E | E]; rewrite E in *; discriminate.
    + rewrite Hs0 in Hoff. destruct Hoff as (Hr0 & _).
      rewrite Hs, Hr, Hrr, Hl. unfold TOTAL_ROUNDS in *.
      repeat split; intros; try discriminate; lia.
Qed.

(** Claim C7, amended.  When the callbacks are called one at a time, on
    the screen that offers them: the current record is absent on the
    title and the game screen; on the result screen it is present except
    while the fetch of [nextRound] is in flight ([isLoading]); on the
    final-results screen it is present exactly as long as the history
    is not empty ([startGame] clears both before its fetch). *)
Theorem current_record_by_screen_and_loading
    (events : list Event) (h : Hook) :
  playGuarded provider (oneAtATime offered) events initialHook = Some h ->
  let s := game (world h) in
  (screen s = Title \/ screen s = Game -> currentResult s = None)
  /\ (screen s = Result ->
      (currentResult s <> None <-> isLoading s = false))
  /\ (screen s = FinalResults ->
      (currentResult s <> None <-> roundResults s <> [])).
Proof.
  intros Hplay st. unfold st.
  destruct (stage_from_start offered screensInv screensInv_step events h
              screensInv_initial Hplay)
    as [[_ Hinv] | (w0 & op & su & Hinv & Ha & Hb & _)];
    destruct Hinv as (Hoff & (_ & Hlast & Hload) & _ & _ & _ & Hfin).
  - unfold offeredInv in Hoff. cbv zeta in Hoff.
    assert (Hne : currentResult (game (world h)) <> None ->
                  roundResults (game (world h)) <> []).
    { intros Hc Hrr.
      destruct (currentResult (game (world h))) as [r |] eqn:Hr;
        [| contradiction].
      destruct (Hlast r Hr) as (earlier & He). rewrite He in Hrr.
      destruct earlier; discriminate Hrr. }
    split; [| split].
    + intros [Hs | Hs]; rewrite Hs in Hoff.
      * destruct Hoff as [_ Hc]. exact Hc.
      * destruct Hoff as (_ & _ & Hc). exact Hc.
    + intro Hs. rewrite Hs in Hoff. destruct Hoff as (_ & _ & Hc).
      split; [intros _; exact Hload | intros _; exact Hc].
    + intro Hs. split; [exact Hne | apply Hfin; exact Hs].
  - destruct (offered_suspends w0 (world h) op su Ha Hb)
      as [(_ & Hs0 & Hs & _ & Hc & Hrr & Hl & _)
         | (_ & Hs0 & _ & Hs & _ & Hc & _ & Hl & _)].
    + rewrite Hs, Hc, Hrr, Hl. split; [| split].
      * intros _. reflexivity.
      * intro Hd. destruct Hs0 as [E | E]; rewrite E in Hd; discriminate Hd.
      * intros _. split; intro Hx; exfalso; apply Hx; reflexivity.
    + rewrite Hs, Hc, Hl. split; [| split].
      * intros _. reflexivity.
      * intros _. split; intro Hx; [exfalso; apply Hx; reflexivity
                                  | discriminate Hx].
      * intro Hd. discriminate Hd.
Qed.

(** Property X18.  When the callbacks are called one at a time, on the
    screen that offers them, the records of the history carry the round
    numbers 1, 2, 3, ... in order, also while a fetch is in flight. *)
Theorem history_numbered_one_at_a_time (events : list Event) (h : Hook) :
  playGuarded provider (oneAtATime offered) events initialHook = Some h ->
  List.map roundNumber (roundResults (game (world h)))
  = seq 1 (List.length (roundResults (game (world h)))).
Proof.
  intro Hplay.
  destruct (stage_from_start offered screensInv screensInv_step events h
              screensInv_initial Hplay)
    as [[_ Hinv] | (w0 & op & su & Hinv & Ha & Hb & _)];
    destruct Hinv as (_ & _ & Hnum & _).
  - exact Hnum.
  - destruct (offered_suspends w0 (world h) op su Ha Hb)
      as [(_ & _ & _ & _ & _ & Hrr & _) | (_ & _ & _ & _ & _ & _ & Hrr & _)];
      rewrite Hrr; [reflexivity | exact Hnum].
Qed.

Lemma render_at_rest (w : World) :
  screensInv w -> App.render (game w) = expectedPanels (game w).
Proof.
  intros (Hoff & (_ & _ & Hload) & _ & Himg & Herr & _).
  unfold App.render, expectedPanels.
  rewrite (InterfaceFacts.truthyError_known _ Herr), Hload, andb_false_r.
  destruct Herr as [He | He]; rewrite He; [| reflexivity].
  unfold offeredInv in Hoff. unfold imageShown in Himg.
  unfold App.onScreen.
  destruct (screen (game w)) eqn:Hs; cbn [panelOf andb App.when app].
  - reflexivity.
  - destruct (currentImage (game w)) as [image |]; [reflexivity |].
    exfalso. apply Himg; auto.
  - destruct Hoff as (_ & _ & Hc).
    destruct (currentResult (game w)) as [result |]; [reflexivity |].
    exfalso. apply Hc. reflexivity.
  - reflexivity.
Qed.

(** Property X22.  When the callbacks are called one at a time, on the
    screen that offers them, the application renders the error panel
    when an error is set; nothing at all while the fetch of [nextRound]
    is in flight (result screen, no current record); and otherwise
    exactly the panel of the screen.  The loading spinner of the game
    screen is never rendered. *)
Theorem render_by_screen_and_loading (events : list Event) (h : Hook) :
  playGuarded provider (oneAtATime offered) events initialHook = Some h ->
  App.render (game (world h)) = expectedPanels (game (world h))
  /\ ~ In App.LoadingSpinner (App.render (game (world h))).
Proof.
  intro Hplay.
  assert (Hr : App.render (game (world h))
               = expectedPanels (game (world h))).
  { destruct (stage_from_start offered screensInv screensInv_step events h
                screensInv_initial Hplay)
      as [[_ Hinv] | (w0 & op & su & Hinv & Ha & Hb & _)].
    - apply render_at_rest. exact Hinv.
    - unfold App.render, expectedPanels, App.onScreen.
      destruct (offered_suspends w0 (world h) op su Ha Hb)
        as [(_ & Hs0 & Hs & _ & _ & _ & Hl & He)
           | (_ & _ & _ & Hs & _ & Hc & _ & Hl & He)].
      + rewrite He, Hs. cbn [App.truthyError].
        destruct Hs0 as [E | E]; rewrite E; reflexivity.
      + rewrite He, Hs, Hc, Hl. reflexivity. }
  split; [exact Hr |].
  rewrite Hr. unfold expectedPanels.
  destruct (error (game (world h))).
  - intros [Hd | []]. discriminate Hd.
  - destruct (App.onScreen (game (world h)) Result
              && isLoading (game (world h))); [intros [] |].
    intros [Hd | []].
    destruct (screen (game (world h))); discriminate Hd.
Qed.

(** Property X23.  Played through the interface one call at a time, a
    final-results screen without an error shows a whole match, round
    counter 5 and the records of the rounds 1 to 5, unless the fetch of
    Play Again is in flight ([isLoading]): then the counter is 1 and the
    history is empty. *)
Theorem final_results_by_loading (events : list Event) (h : Hook) :
  playGuarded provider (oneAtATime App.uiOffers) events initialHook
  = Some h ->
  screen (game (world h)) = FinalResults ->
  error (game (world h)) = None ->
  (isLoading (game (world h)) = false ->
   currentRound (game (world h)) = TOTAL_ROUNDS
   /\ List.map roundNumber (roundResults (game (world h)))
      = [1; 2; 3; 4; 5]%nat)
  /\ (isLoading (game (world h)) = true ->
      currentRound (game (world h)) = 1%nat
      /\ roundResults (game (world h)) = []).
Proof.
  intros Hplay Hs He.
  destruct (stage_from_start App.uiOffers interfaceInv interfaceInv_step
              events h interfaceInv_initial Hplay)
    as [[_ Hinv] | (w0 & op & su & Hinv & Ha & Hb & _)].
  - destruct Hinv as ((Hload & _ & _ & Hmain) & _ & Hnum).
    specialize (Hmain He). rewrite Hs in Hmain. destruct Hmain as [Hr Hlen].
    split.
    + intros _. split; [exact Hr |].
      unfold numbered in Hnum. rewrite Hnum, Hlen. reflexivity.
    + intro Hl. rewrite Hload in Hl. discriminate Hl.
  - pose proof (InterfaceFacts.uiOffers_offered _ _ Ha) as Ho.
    destruct (offered_suspends w0 (world h) op su Ho Hb)
      as [(_ & _ & _ & Hr & _ & Hrr & Hl & _)
         | (_ & _ & _ & Hs' & _)].
    + rewrite Hl, Hr, Hrr. split.
      * intro Hd. discriminate Hd.
      * intros _. split; reflexivity.
    + rewrite Hs' in Hs. discriminate Hs.
Qed.

End AnyProvider.

Import Scenario.

(** Two fetches of [startGame] in flight: the second one resolves after
    the first round, every call is made on the screen that offers it,
    every guess is submitted on the game screen, and the match ends
    with six records, numbered 1, 1, 2, 3, 4, 5. *)
Lemma late_second_start :
  let h := play alwaysResolves lateSecondStart initialHook in
  playGuarded alwaysResolves (anyTime offered) lateSecondStart initialHook
  = Some h
  /\ playGuarded alwaysResolves (anyTime submitOnGameScreen)
       lateSecondStart initialHook
     = Some h
  /\ List.map roundNumber (roundResults (game (world h)))
     = [1; 1; 2; 3; 4; 5]%nat.
Proof.
  vm_compute. repeat split; reflexivity.
Qed.

(** The amended claim C3 on a whole match, one call at a time. *)
Lemma history_bound_one_at_a_time_witness :
  (List.length
     (roundResults
        (game (world (play alwaysResolves matchOneAtATime initialHook))))
   <= TOTAL_ROUNDS)%nat.
Proof.
  apply (history_bound_one_at_a_time alwaysResolves matchOneAtATime).
  vm_compute. reflexivity.
Defined.

(** The amended claim C6 while the fetch of the second round is in
    flight: result screen, counter 2, one record. *)
Lemma round_counter_by_screen_and_loading_witness :
  let s := game (world (play alwaysResolves waitingForNext initialHook)) in
  screen s = Result
  /\ isLoading s = true
  /\ currentRound s = (List.length (roundResults s) + 1)%nat.
Proof.
  split; [vm_compute; reflexivity |].
  split; [vm_compute; reflexivity |].
  apply (round_counter_by_screen_and_loading alwaysResolves waitingForNext).
  - vm_compute. reflexivity.
  - vm_compute. reflexivity.
  - vm_compute. reflexivity.
Defined.

(** The amended claim C7 after the fifth guess (record present) and
    while the fetch of the second round is in flight (record absent on
    the result screen). *)
Lemma current_record_by_screen_and_loading_witness :
  currentResult
    (game (world (play alwaysResolves matchOneAtATime initialHook)))
  <> None
  /\ ~ (currentResult
          (game (world (play alwaysResolves waitingForNext initialHook)))
        <> None).
Proof.
  split.
  - destruct (current_record_by_screen_and_loading alwaysResolves
                matchOneAtATime
                (play alwaysResolves matchOneAtATime initialHook))
      as (_ & Hres & _); [vm_compute; reflexivity |].
    apply Hres; vm_compute; reflexivity.
  - destruct (current_record_by_screen_and_loading alwaysResolves
                waitingForNext
                (play alwaysResolves waitingForNext initialHook))
      as (_ & Hres & _); [vm_compute; reflexivity |].
    intro Hc. apply Hres in Hc; [| vm_compute; reflexivity].
    vm_compute in Hc. discriminate Hc.
Defined.

Lemma history_numbered_one_at_a_time_witness :
  List.map roundNumber
    (roundResults
       (game (world (play alwaysResolves matchOneAtATime initialHook))))
  = seq 1 5.
Proof.
  apply (history_numbered_one_at_a_time alwaysResolves matchOneAtATime).
  vm_compute. reflexivity.
Defined.

Lemma render_by_screen_and_loading_witness :
  App.render (game (world (play alwaysResolves waitingForNext initialHook)))
  = []
  /\ App.render
       (game (world (play alwaysResolves matchOneAtATime initialHook)))
     = [App.ResultPanel].
Proof.
  split.
  - apply (render_by_screen_and_loading alwaysResolves waitingForNext).
    vm_compute. reflexivity.
  - apply (render_by_screen_and_loading alwaysResolves matchOneAtATime).
    vm_compute. reflexivity.
Defined.

Lemma final_results_by_loading_witness :
  let h := play alwaysResolves
             (matchOneAtATime ++ [Invoke ViewFinalResults]) initialHook in
  currentRound (game (world h)) = TOTAL_ROUNDS
  /\ List.map roundNumber (roundResults (game (world h)))
     = [1; 2; 3; 4; 5]%nat.
Proof.
  apply (final_results_by_loading alwaysResolves
           (matchOneAtATime ++ [Invoke ViewFinalResults])).
  - vm_compute. reflexivity.
  - vm_compute. reflexivity.
  - vm_compute. reflexivity.
  - vm_compute. reflexivity.
Defined.

End AsyncFacts.
